(** * locksearch: the program index (src/indexer.rs) and the search engine
    (src/search.rs), as a shallow embedding.

    External collaborators appear as type classes: the fuzzy matcher
    (the [FuzzyMatcher] trait of fuzzy_matcher, used through
    SkimMatcherV2), Unicode lowercasing ([str::to_lowercase]), the
    platform's [OsStr] conversions, the icon backend (systemicons and
    [fs::write]) and the JSON codec of the snapshot file (serde_json).
    Every theorem below holds for every instance of them. *)

From Stdlib Require Import ZArith Sorted Permutation Ascii PrimFloat.
From stdpp Require Import base list gmap strings.
Import ListNotations.
Open Scope string_scope.

(* ------------------------------------------------------------------ *)
(** ** Data model (indexer.rs, search.rs) *)

Definition PathBuf := string.

Inductive ProgramSource := StartMenu | ProgramFiles.

Record ProgramEntry := mkEntry {
  path : PathBuf;
  name : string;
  display_name : string;
  source : ProgramSource;
  icon_path : option PathBuf
}.

Record SearchResult := mkResult {
  entry : ProgramEntry;
  score : Z   (** i64; skim scores are small, the +150 of bonuses never wraps *)
}.

(** The [FuzzyMatcher] trait: [fuzzy_match choice pattern]. *)
Class FuzzyMatcher := { fuzzy_match : string -> string -> option Z }.

(** The Unicode tables of Rust's [str] and [char]: [str::to_lowercase],
    [str::chars] (the string's chars, each given by its UTF-8 bytes) and
    [char::is_alphanumeric]. *)
Class Unicode := {
  to_lowercase : string -> string;
  chars : string -> list string;
  is_alphanumeric : string -> bool
}.

(** Rust's [Option<i64>] ordering: [None] is below every [Some]. *)
Definition option_max (a b : option Z) : option Z :=
  match a, b with
  | None, _ => b
  | _, None => a
  | Some x, Some y => Some (Z.max x y)
  end.

(** [Iterator::filter_map]. *)
Fixpoint filter_map {A B} (f : A -> option B) (l : list A) : list B :=
  match l with
  | [] => []
  | x :: l' => match f x with
               | Some y => y :: filter_map f l'
               | None => filter_map f l'
               end
  end.

(** [slice::sort_by]: a stable sort by a comparator.  Every stable sort
    gives the same output for a comparator that is a total preorder; this
    one inserts each element in front of the first element it is not
    greater than. *)
Fixpoint insert_by {A} (cmp : A -> A -> comparison) (x : A) (l : list A) : list A :=
  match l with
  | [] => [x]
  | y :: l' => match cmp x y with
               | Gt => y :: insert_by cmp x l'
               | _ => x :: l
               end
  end.

Fixpoint sort_by {A} (cmp : A -> A -> comparison) (l : list A) : list A :=
  match l with
  | [] => []
  | x :: l' => insert_by cmp x (sort_by cmp l')
  end.

(* ------------------------------------------------------------------ *)
(** ** SearchEngine::search *)

(** The input list with each element's index, [entries.iter().enumerate()]
    from [k]: the original positions the results are compared against. *)
Fixpoint enumerate_from {A} (k : nat) (l : list A) : list (nat * A) :=
  match l with
  | [] => []
  | x :: l' => (k, x) :: enumerate_from (S k) l'
  end.

Section SearchEngine.
Context `{FuzzyMatcher} `{Unicode}.

(** The closure given to [filter_map] in [search]. *)
Definition score_entry (query_lower : string) (e : ProgramEntry) : option SearchResult :=
  let display_score := fuzzy_match (to_lowercase (display_name e)) query_lower in
  let name_score := fuzzy_match (name e) query_lower in
  match option_max display_score name_score with
  | None => None
  | Some base_score =>
      let source_boost := match source e with StartMenu => 50%Z | ProgramFiles => 0%Z end in
      let prefix_boost :=
        if String.prefix query_lower (to_lowercase (display_name e)) then 100%Z else 0%Z in
      Some (mkResult e (base_score + source_boost + prefix_boost)%Z)
  end.

(** [|a, b| b.score.cmp(&a.score)] *)
Definition cmp_score (a b : SearchResult) : comparison := Z.compare (score b) (score a).

Definition search (query : string) (entries : list ProgramEntry) : list SearchResult :=
  if String.eqb query "" then
    map (fun e => mkResult e 0%Z) (firstn 20 entries)
  else
    let query_lower := to_lowercase query in
    let results := filter_map (score_entry query_lower) entries in
    firstn 50 (sort_by cmp_score results).

(** [score_entry] on an element paired with its index. *)
Definition tag_score (ql : string) (ie : nat * ProgramEntry) : option (nat * SearchResult) :=
  option_map (pair (fst ie)) (score_entry ql (snd ie)).

(** Whether the tagged result [p] comes before a result of score [s] for
    the entry at index [i] in the order [search] returns: a higher score,
    or the same score and a smaller index. *)
Definition search_before (s : Z) (i : nat) (p : nat * SearchResult) : bool :=
  Z.ltb s (score (snd p)) || (Z.eqb (score (snd p)) s && Nat.ltb (fst p) i).

(** The number of matching entries that come before a result of score [s]
    for the entry at index [i]: its position in the sorted list before the
    cut to 50. *)
Definition search_rank (ql : string) (entries : list ProgramEntry) (i : nat) (s : Z) : nat :=
  length (List.filter (search_before s i)
            (filter_map (tag_score ql) (enumerate_from 0 entries))).

End SearchEngine.

(* ------------------------------------------------------------------ *)
(** ** Paths (std::path, on the file name of a path) *)

(** The platform's [OsStr]: [Path::file_name], and whether an [OsStr] is
    valid Unicode ([OsStr::to_str] succeeds). *)
Class OsStr := {
  file_name : PathBuf -> option string;
  os_str_valid : string -> bool
}.

(** [PathBuf::join] with the Windows separator. *)
Definition join (dir : PathBuf) (f : string) : PathBuf := dir ++ "\" ++ f.

(** The split of a file name at its last dot, [None] without a dot. *)
Fixpoint split_last_dot (s : string) : option (string * string) :=
  match s with
  | EmptyString => None
  | String c rest =>
      match split_last_dot rest with
      | Some (b, a) => Some (String c b, a)
      | None => if Ascii.eqb c "."%char then Some ("", rest) else None
      end
  end.

(** std's [rsplit_file_at_dot]: (before, after). *)
Definition rsplit_file_at_dot (file : string) : option string * option string :=
  if String.eqb file ".." then (Some file, None)
  else match split_last_dot file with
       | None => (None, Some file)
       | Some (before, after) =>
           if String.eqb before "" then (Some file, None) else (Some before, Some after)
       end.

Section Paths.
Context `{OsStr}.

Definition to_str (s : string) : option string := if os_str_valid s then Some s else None.

(** [Path::file_stem]: [before.or(after)]. *)
Definition file_stem (p : PathBuf) : option string :=
  match file_name p with
  | None => None
  | Some f => let (before, after) := rsplit_file_at_dot f in
              match before with Some b => Some b | None => after end
  end.

(** [Path::extension]: [before.and(after)]. *)
Definition extension (p : PathBuf) : option string :=
  match file_name p with
  | None => None
  | Some f => let (before, after) := rsplit_file_at_dot f in
              match before with Some _ => after | None => None end
  end.

(** [path.file_stem().and_then(|n| n.to_str()).map(|n| n.to_string())
     .unwrap_or_else(|| "Unknown".to_string())] *)
Definition stem_or_unknown (p : PathBuf) : string :=
  match file_stem p with
  | Some s => match to_str s with Some n => n | None => "Unknown" end
  | None => "Unknown"
  end.

End Paths.

(* ------------------------------------------------------------------ *)
(** ** The walked files *)

(** What [lnk::ShellLink::open] gives for a file, inside [catch_unwind]:
    a parsed link (its [name()] and [link_info()]), an [Err], or a panic
    of the parser. *)
Record LinkInfo := { local_base_path : option string }.

Inductive LnkResult :=
  | LnkOk (lnk_name : option string) (link_info : option LinkInfo)
  | LnkErr
  | LnkPanic.

(** One item of [WalkDir::new(dir).max_depth(..).follow_links(false)]:
    the path, [path.is_file()], and the result of opening it as a link. *)
Record WalkItem := {
  wi_path : PathBuf;
  wi_is_file : bool;
  wi_lnk : LnkResult
}.

(** The walk of one root; [None] is an [Err] item of the iterator, which
    [.filter_map(|e| e.ok())] drops. *)
Definition Walk := list (option WalkItem).

(** The roots [start_indexing] walks that exist ([start_path.exists()]):
    the Start Menu directories, then the Program Files directories. *)
Record Roots := {
  start_menu_walks : list Walk;
  program_files_walks : list Walk
}.

(* ------------------------------------------------------------------ *)
(** ** Icons (extract_icon) *)

(** [systemicons::get_icon(path, size)] and whether [fs::write] of an icon
    file succeeds. *)
Class IconBackend := {
  get_icon : string -> nat -> option string;
  write_ok : PathBuf -> bool
}.

Section Icons.
Context `{Unicode} `{IconBackend}.

(** The closure of [safe_name]'s [filter]. *)
Definition safe_char (c : string) : bool :=
  is_alphanumeric c || String.eqb c " " || String.eqb c "-" || String.eqb c "_".

(** [replace(' ', "_")] on one char: the space is one byte in UTF-8 and
    never part of another char, so the string's replace works char by
    char. *)
Definition replace_space (c : string) : string := if String.eqb c " " then "_" else c.

(** [safe_name = display_name.chars().filter(..).take(50).collect()] and
    [format!("{}.png", safe_name.replace(' ', "_"))]. *)
Definition icon_filename (display_name : string) : string :=
  let safe_name := firstn 50 (List.filter safe_char (chars display_name)) in
  String.concat "" (map replace_space safe_name) ++ ".png".

(** [extract_icon], threading the set of files present in the icon cache
    directory. *)
Definition extract_icon (exe_path : PathBuf) (display_name : string)
    (cache_dir : PathBuf) (fs : gset PathBuf) : option PathBuf * gset PathBuf :=
  let icon_path := join cache_dir (icon_filename display_name) in
  if decide (icon_path ∈ fs) then (Some icon_path, fs)
  else match get_icon exe_path 48 with
       | Some _ => if write_ok icon_path then (Some icon_path, {[icon_path]} ∪ fs)
                   else (None, fs)
       | None => (None, fs)
       end.

End Icons.

(* ------------------------------------------------------------------ *)
(** ** The scan (index_directory, get_display_name_and_target) *)

(** [haystack.contains(needle)] *)
Fixpoint contains (haystack needle : string) : bool :=
  String.prefix needle haystack ||
  match haystack with
  | EmptyString => false
  | String _ rest => contains rest needle
  end.

Definition extensions (source : ProgramSource) : list string :=
  match source with StartMenu => ["lnk"] | ProgramFiles => ["exe"] end.

(** A walked file that passed the filters of [index_directory], with the
    display name and target [get_display_name_and_target] gave it. *)
Record Candidate := {
  c_path : PathBuf;
  c_name : string;          (** [name_lower] *)
  c_display : string;
  c_target : PathBuf;
  c_source : ProgramSource
}.

Section Scan.
Context `{Unicode} `{OsStr} `{IconBackend}.

Definition get_display_name_and_target (w : WalkItem) (ext : option string)
    : string * PathBuf :=
  let p := wi_path w in
  let fallback := (stem_or_unknown p, p) in
  match ext with
  | Some "lnk" =>
      match wi_lnk w with
      | LnkOk lnk_name link_info =>
          let nm := match lnk_name with
                    | Some s => if String.eqb s "" then None else Some s
                    | None => None
                    end in
          let target := match link_info with
                        | Some li => match local_base_path li with
                                     | Some bp => bp
                                     | None => p
                                     end
                        | None => p
                        end in
          let display := match nm with Some s => s | None => stem_or_unknown p end in
          (display, target)
      | LnkErr | LnkPanic => fallback
      end
  | _ => fallback
  end.

(** The body of the walk loop of [index_directory] up to the dedup key:
    the [is_file], extension and uninstaller/updater filters, then the
    display name and target. *)
Definition prepare_item (source : ProgramSource) (it : option WalkItem)
    : option Candidate :=
  match it with
  | None => None
  | Some w =>
      let p := wi_path w in
      if negb (wi_is_file w) then None else
      let ext := match extension p with
                 | Some e => match to_str e with
                             | Some e' => Some (to_lowercase e')
                             | None => None
                             end
                 | None => None
                 end in
      let is_valid_ext := match ext with
                          | Some e => existsb (String.eqb e) (extensions source)
                          | None => false
                          end in
      if negb is_valid_ext then None else
      let name_lower := match file_stem p with
                        | Some n => match to_str n with
                                    | Some n' => to_lowercase n'
                                    | None => ""
                                    end
                        | None => ""
                        end in
      if contains name_lower "uninstall" || contains name_lower "uninst"
         || contains name_lower "update" || contains name_lower "updater"
         || contains name_lower "setup"
      then None else
      let (display_name, target_path) := get_display_name_and_target w ext in
      Some {| c_path := p; c_name := name_lower; c_display := display_name;
              c_target := target_path; c_source := source |}
  end.

Record ScanState := {
  programs : list ProgramEntry;
  seen : gmap string bool;
  icon_files : gset PathBuf
}.

(** The rest of the loop body: the dedup on the lowercased display name,
    the icon, and the push. *)
Definition admit_candidate (icon_cache_dir : PathBuf) (st : ScanState)
    (c : Candidate) : ScanState :=
  let key := to_lowercase (c_display c) in
  match seen st !! key with
  | Some _ => st
  | None =>
      let (icon, fs') := extract_icon (c_target c) (c_display c) icon_cache_dir
                           (icon_files st) in
      {| programs := programs st ++
           [{| path := c_path c; name := c_name c; display_name := c_display c;
               source := c_source c; icon_path := icon |}];
         seen := <[key := true]> (seen st);
         icon_files := fs' |}
  end.

Definition index_item (source : ProgramSource) (icon_cache_dir : PathBuf)
    (st : ScanState) (it : option WalkItem) : ScanState :=
  match prepare_item source it with
  | None => st
  | Some c => admit_candidate icon_cache_dir st c
  end.

Definition index_directory (walk : Walk) (source : ProgramSource)
    (icon_cache_dir : PathBuf) (st : ScanState) : ScanState :=
  fold_left (index_item source icon_cache_dir) walk st.

Definition priority (s : ProgramSource) : nat :=
  match s with StartMenu => 0 | ProgramFiles => 1 end.

(** [priority_a.cmp(&priority_b).then_with(|| a.display_name.cmp(&b.display_name))];
    [String]'s [Ord] is byte-wise, as [String.compare]. *)
Definition cmp_programs (a b : ProgramEntry) : comparison :=
  match Nat.compare (priority (source a)) (priority (source b)) with
  | Eq => String.compare (display_name a) (display_name b)
  | c => c
  end.

Definition finalize (l : list ProgramEntry) : list ProgramEntry := sort_by cmp_programs l.

(** [programs] and [seen] start empty; the icon cache directory holds [fs]. *)
Definition scan_start (fs : gset PathBuf) : ScanState :=
  {| programs := []; seen := ∅; icon_files := fs |}.

(** The walks of the task spawned by [start_indexing]: the Start Menu
    roots, then the Program Files roots. *)
Definition scan_working (roots : Roots) (icon_cache_dir : PathBuf) (fs : gset PathBuf)
    : ScanState :=
  let st1 := fold_left (fun st w => index_directory w StartMenu icon_cache_dir st)
               (start_menu_walks roots) (scan_start fs) in
  fold_left (fun st w => index_directory w ProgramFiles icon_cache_dir st)
    (program_files_walks roots) st1.

(** The spawned task up to publication: the finalized list, and the icon
    cache directory afterwards. *)
Definition scan (roots : Roots) (icon_cache_dir : PathBuf) (fs : gset PathBuf)
    : list ProgramEntry * gset PathBuf :=
  let st2 := scan_working roots icon_cache_dir fs in
  (finalize (programs st2), icon_files st2).

End Scan.

(** The path, display name and source of an entry, and the same of a
    candidate: what the dedup decides, before the icon. *)
Definition entry_view (e : ProgramEntry) : PathBuf * string * ProgramSource :=
  (path e, display_name e, source e).

Definition cand_view (c : Candidate) : PathBuf * string * ProgramSource :=
  (c_path c, c_display c, c_source c).

(** The shape of an [icon_path] produced by [extract_icon]. *)
Definition icon_shape `{Unicode} (icon_cache_dir : PathBuf) (e : ProgramEntry) : Prop :=
  icon_path e = None \/ icon_path e = Some (join icon_cache_dir (icon_filename (display_name e))).

Section ScanAux.
Context `{Unicode} `{OsStr}.

Definition dedup_key (display : string) : string := to_lowercase display.

(** The candidates of a scan in encounter order: the Start Menu walks,
    then the Program Files walks, each after the per-file filters. *)
Definition candidates (roots : Roots) : list Candidate :=
  concat (map (filter_map (prepare_item StartMenu)) (start_menu_walks roots)) ++
  concat (map (filter_map (prepare_item ProgramFiles)) (program_files_walks roots)).

(** The walked items of a scan in encounter order, with their root's source. *)
Definition walked_items (roots : Roots) : list (ProgramSource * option WalkItem) :=
  concat (map (map (pair StartMenu)) (start_menu_walks roots)) ++
  concat (map (map (pair ProgramFiles)) (program_files_walks roots)).

(** The invariant of the scan loop after the candidates [P]. *)
Definition scan_inv (icon_cache_dir : PathBuf) (P : list Candidate) (st : ScanState) : Prop :=
  (forall k, is_Some (seen st !! k) <-> In k (map (fun c => dedup_key (c_display c)) P)) /\
  NoDup (map (fun e => dedup_key (display_name e)) (programs st)) /\
  (forall t, In t (map entry_view (programs st)) <->
     exists pre c post, P = (pre ++ c :: post)%list /\ cand_view c = t /\
       Forall (fun c' => dedup_key (c_display c') <> dedup_key (c_display c)) pre) /\
  Forall (icon_shape icon_cache_dir) (programs st).

End ScanAux.

(* ------------------------------------------------------------------ *)
(** ** The index store (ProgramIndex) *)

(** The three fields of [ProgramIndex], each behind its own [RwLock]. *)
Record Store := {
  st_entries : list ProgramEntry;
  st_is_indexing : bool;
  st_indexed_count : nat
}.

(** [ProgramIndex::new] *)
Definition new_index : Store :=
  {| st_entries := []; st_is_indexing := false; st_indexed_count := 0 |}.

(** One write under one of the three locks; a reader may run between any
    two of them. *)
Inductive Write :=
  | SetEntries (l : list ProgramEntry)
  | SetIndexing (b : bool)
  | SetCount (n : nat).

Definition apply_write (st : Store) (w : Write) : Store :=
  match w with
  | SetEntries l => {| st_entries := l; st_is_indexing := st_is_indexing st;
                       st_indexed_count := st_indexed_count st |}
  | SetIndexing b => {| st_entries := st_entries st; st_is_indexing := b;
                        st_indexed_count := st_indexed_count st |}
  | SetCount n => {| st_entries := st_entries st; st_is_indexing := st_is_indexing st;
                     st_indexed_count := n |}
  end.

Definition apply_writes (st : Store) (ws : list Write) : Store := fold_left apply_write ws st.

(** The snapshot file at [cache_path], as [exists()] and
    [fs::read_to_string] see it. *)
Inductive CacheFile :=
  | CacheMissing
  | CacheUnreadable
  | CacheContents (data : string).

(** [serde_json::from_str::<Vec<ProgramEntry>>] *)
Class CacheCodec := { from_str : string -> option (list ProgramEntry) }.

Section Store.
Context `{CacheCodec}.

(** [ProgramIndex::load_cache]: the result and the writes it performs. *)
Definition load_cache_writes (cf : CacheFile) : bool * list Write :=
  match cf with
  | CacheMissing => (false, [])
  | CacheUnreadable => (false, [])
  | CacheContents data =>
      match from_str data with
      | Some cached => (true, [SetEntries cached; SetCount (length cached)])
      | None => (false, [])
      end
  end.

Definition load_cache (cf : CacheFile) (st : Store) : bool * Store :=
  let (ok, ws) := load_cache_writes cf in (ok, apply_writes st ws).

End Store.

(** The first critical section of [start_indexing]: return if a scan is
    in flight, else set the flag (the scan is then spawned). *)
Definition start_indexing_writes (st : Store) : bool * list Write :=
  if st_is_indexing st then (false, []) else (true, [SetIndexing true]).

(** The publication at the end of the spawned scan. *)
Definition publish_writes (programs : list ProgramEntry) : list Write :=
  [SetEntries programs; SetCount (length programs); SetIndexing false].

(** Whole operations on the store. *)
Inductive StoreOp :=
  | OpLoadCache (cf : CacheFile)
  | OpStartIndexing
  | OpFinishScan (roots : Roots) (icon_cache_dir : PathBuf) (fs : gset PathBuf).

Section Ops.
Context `{Unicode} `{OsStr} `{IconBackend} `{CacheCodec}.

Definition op_writes (st : Store) (op : StoreOp) : list Write :=
  match op with
  | OpLoadCache cf => snd (load_cache_writes cf)
  | OpStartIndexing => snd (start_indexing_writes st)
  | OpFinishScan roots dir fs => publish_writes (fst (scan roots dir fs))
  end.

Definition run_op (st : Store) (op : StoreOp) : Store := apply_writes st (op_writes st op).

Definition run_ops (st : Store) (ops : list StoreOp) : Store := fold_left run_op ops st.

End Ops.

Definition consistent (st : Store) : Prop := st_indexed_count st = length (st_entries st).

(* ------------------------------------------------------------------ *)
(** ** Configuration (config.rs) *)

Record ThemeConfig := {
  background : string;
  panel : string;
  accent : string;
  selected : string
}.

(** [f32] as a primitive float, [u16] as [N], [usize] as [nat]. *)
Record Config := {
  window_width : float;
  window_height : float;
  search_icon_size : N;
  program_icon_size : N;
  max_results : nat;
  theme : ThemeConfig;
  extra_index_paths : list string;
  exclude_paths : list string;
  initial_sort : string;
  enable_cache : bool
}.

Definition default_window_width : float := 500.0%float.
Definition default_window_height : float := 500.0%float.
Definition default_search_icon_size : N := 18%N.
Definition default_program_icon_size : N := 42%N.
Definition default_max_results : nat := 10.
Definition default_bg_color : string := "#1B1F28".
Definition default_panel_color : string := "#222733".
Definition default_accent_color : string := "#7A5CCB".
Definition default_selected_color : string := "#2E3546".
Definition default_initial_sort : string := "alphabetical".
Definition default_enable_cache : bool := true.

(** [ThemeConfig::default] *)
Definition default_theme : ThemeConfig :=
  {| background := default_bg_color; panel := default_panel_color;
     accent := default_accent_color; selected := default_selected_color |}.

(** [Config::default] *)
Definition default_config : Config :=
  {| window_width := default_window_width;
     window_height := default_window_height;
     search_icon_size := default_search_icon_size;
     program_icon_size := default_program_icon_size;
     max_results := default_max_results;
     theme := default_theme;
     extra_index_paths := [];
     exclude_paths := [];
     initial_sort := default_initial_sort;
     enable_cache := default_enable_cache |}.

(** What [Config::config_path] and [Config::load] see of the system:
    [Path::exists], [fs::read_to_string] ([None] for an [Err]),
    [std::env::current_exe] ([None] for an [Err]), [Path::parent] and
    [serde_yaml::from_str::<Config>]. *)
Class ConfigEnv := {
  cfg_exists : PathBuf -> bool;
  read_to_string : PathBuf -> option string;
  current_exe : option PathBuf;
  parent : PathBuf -> option PathBuf;
  yaml_from_str : string -> option Config
}.

Section ConfigLoad.
Context `{ConfigEnv}.

(** [Config::config_path] *)
Definition config_path : PathBuf :=
  let local_path := "config.yaml" in
  if cfg_exists local_path then local_path else
  match current_exe with
  | Some exe_path =>
      match parent exe_path with
      | Some exe_dir =>
          let exe_config := join exe_dir "config.yaml" in
          if cfg_exists exe_config then exe_config else local_path
      | None => local_path
      end
  | None => local_path
  end.

(** [Config::load]; the [eprintln!] of a failed read or parse only
    writes to stderr. *)
Definition load : Config :=
  let p := config_path in
  if cfg_exists p then
    match read_to_string p with
    | Some content =>
        match yaml_from_str content with
        | Some config => config
        | None => default_config
        end
    | None => default_config
    end
  else default_config.

End ConfigLoad.

(* ------------------------------------------------------------------ *)
(** ** The window (ui.rs) *)

(** [ProgramResult]; its fields are [path], [display_name] and
    [icon_path], prefixed here to keep them apart from [ProgramEntry]'s. *)
Record ProgramResult := {
  pr_path : PathBuf;
  pr_display_name : string;
  pr_icon_path : option PathBuf
}.

(** [keyboard::Key], with the named keys [update] tells apart. *)
Inductive NamedKey := ArrowDown | ArrowUp | Enter | Escape | OtherNamed.

Inductive Key :=
  | Named (k : NamedKey)
  | Character (c : string)
  | Unidentified.

Inductive Message :=
  | SearchChanged (query : string)
  | SearchCompleted (results : list ProgramResult)
  | LaunchSelected
  | KeyPressed (key : Key)
  | IndexingProgress (indexing : bool) (count : nat)
  | StartIndexing
  | CacheLoaded (loaded : bool)
  | WindowMinimize
  | WindowMaximize
  | WindowClose
  | WindowDrag.

(** The window actions of [iced::window]. *)
Inductive WindowAction := Minimize | ToggleMaximize | Close | Drag.

(** The commands [update] and [App::new] return, by what each does when
    the runtime runs it. *)
Inductive Command :=
  | CmdSearch (query : string) (max_results : nat)
      (** [perform_search]: [get_entries], [search], [take(max_results)],
          then [SearchCompleted] *)
  | CmdLoadCache
      (** [load_cache], then [CacheLoaded] *)
  | CmdSendStartIndexing
      (** [Command::perform(async {}, |_| Message::StartIndexing)] *)
  | CmdStartIndexing
      (** [start_indexing], then [IndexingProgress(true, 0)] *)
  | CmdPoll
      (** sleep 100 ms, then [IndexingProgress(is_indexing, indexed_count)] *)
  | CmdWindow (a : WindowAction).

(** [App]; its [program_index] is the shared store the commands run
    against, not part of the window's own state. *)
Record App := {
  config : Config;
  search_query : string;
  search_results : list ProgramResult;
  selected_index : nat;
  is_indexing : bool;
  indexed_count : nat
}.

Definition set_query (q : string) (a : App) : App :=
  {| config := config a; search_query := q; search_results := search_results a;
     selected_index := selected_index a; is_indexing := is_indexing a;
     indexed_count := indexed_count a |}.

Definition set_results (rs : list ProgramResult) (a : App) : App :=
  {| config := config a; search_query := search_query a; search_results := rs;
     selected_index := selected_index a; is_indexing := is_indexing a;
     indexed_count := indexed_count a |}.

Definition set_selected (n : nat) (a : App) : App :=
  {| config := config a; search_query := search_query a;
     search_results := search_results a; selected_index := n;
     is_indexing := is_indexing a; indexed_count := indexed_count a |}.

Definition set_progress (b : bool) (n : nat) (a : App) : App :=
  {| config := config a; search_query := search_query a;
     search_results := search_results a; selected_index := selected_index a;
     is_indexing := b; indexed_count := n |}.

(** [App::new] *)
Definition new_app (config : Config) : App * list Command :=
  ({| config := config; search_query := ""; search_results := [];
      selected_index := 0; is_indexing := false; indexed_count := 0 |},
   if enable_cache config then [CmdLoadCache] else [CmdSendStartIndexing]).

(** [App::perform_search]: the command, and the results its future
    sends back for the entries [get_entries] read. *)
Definition perform_search (a : App) : Command :=
  CmdSearch (search_query a) (max_results (config a)).

Definition perform_search_results `{FuzzyMatcher} `{Unicode} (query : string)
    (max_results : nat) (entries : list ProgramEntry) : list ProgramResult :=
  map (fun r => {| pr_path := path (entry r); pr_display_name := display_name (entry r);
                   pr_icon_path := icon_path (entry r) |})
      (firstn max_results (search query entries)).

(** [self.search_results.get(self.selected_index)], whose path
    [open::that] opens. *)
Definition launch (a : App) : option PathBuf :=
  option_map pr_path (nth_error (search_results a) (selected_index a)).

(** [App::update]: the new state, the returned commands, and the path
    opened with [open::that], if any.  [selected_index + 1] cannot wrap:
    the index stays below the length of the results. *)
Definition update (a : App) (m : Message) : App * list Command * option PathBuf :=
  match m with
  | SearchChanged query =>
      let a' := set_selected 0 (set_query query a) in (a', [perform_search a'], None)
  | SearchCompleted results =>
      let a' := set_results results a in
      (if Nat.leb (length results) (selected_index a') then set_selected 0 a' else a', [], None)
  | LaunchSelected => (a, [], launch a)
  | CacheLoaded loaded =>
      if loaded then (a, [perform_search a; CmdSendStartIndexing], None)
      else (a, [CmdSendStartIndexing], None)
  | WindowMinimize => (a, [CmdWindow Minimize], None)
  | WindowMaximize => (a, [CmdWindow ToggleMaximize], None)
  | WindowClose => (a, [CmdWindow Close], None)
  | WindowDrag => (a, [CmdWindow Drag], None)
  | KeyPressed key =>
      match key with
      | Named ArrowDown =>
          match search_results a with
          | [] => (a, [], None)
          | _ => (set_selected (Nat.modulo (selected_index a + 1) (length (search_results a))) a,
                  [], None)
          end
      | Named ArrowUp =>
          match search_results a with
          | [] => (a, [], None)
          | _ => (set_selected (if Nat.eqb (selected_index a) 0
                                then length (search_results a) - 1
                                else selected_index a - 1) a, [], None)
          end
      | Named Enter => (a, [], launch a)
      | Named Escape =>
          let a' := set_selected 0 (set_query "" a) in (a', [perform_search a'], None)
      | _ => (a, [], None)
      end
  | StartIndexing =>
      if negb (is_indexing a) then
        (set_progress true (indexed_count a) a, [CmdStartIndexing], None)
      else (a, [], None)
  | IndexingProgress indexing count =>
      let a' := set_progress indexing count a in
      if indexing then (a', [CmdPoll], None) else (a', [perform_search a'], None)
  end.

(** The window state after a sequence of messages. *)
Definition run_messages (a : App) (ms : list Message) : App :=
  fold_left (fun a m => fst (fst (update a m))) ms a.

(* ------------------------------------------------------------------ *)
(** ** Concrete instances, for examples *)

Module Concrete.

Definition ascii_lower (c : ascii) : ascii :=
  let n := Ascii.nat_of_ascii c in
  if Nat.leb 65 n && Nat.leb n 90 then Ascii.ascii_of_nat (n + 32) else c.

Fixpoint lower (s : string) : string :=
  match s with
  | EmptyString => ""
  | String c s' => String (ascii_lower c) (lower s')
  end.

(** Alphanumeric ASCII chars: the digits and the Latin letters. *)
Definition ascii_alphanumeric (c : string) : bool :=
  match c with
  | String a "" =>
      let n := Ascii.nat_of_ascii a in
      (Nat.leb 48 n && Nat.leb n 57) || (Nat.leb 65 n && Nat.leb n 90)
      || (Nat.leb 97 n && Nat.leb n 122)
  | _ => false
  end.

(** The Unicode tables restricted to ASCII text, where a char is a byte. *)
#[export] Instance unicode_ascii : Unicode := {
  to_lowercase := lower;
  chars s := map (fun a => String a "") (String.list_ascii_of_string s);
  is_alphanumeric := ascii_alphanumeric
}.

(** The number of bytes of the UTF-8 char that starts with byte [a]. *)
Definition utf8_len (a : ascii) : nat :=
  let n := Ascii.nat_of_ascii a in
  if Nat.ltb n 192 then 1 else if Nat.ltb n 224 then 2 else if Nat.ltb n 240 then 3 else 4.

Fixpoint utf8_split (fuel : nat) (l : list ascii) : list string :=
  match fuel, l with
  | O, _ | _, [] => []
  | S f, a :: _ =>
      String.string_of_list_ascii (firstn (utf8_len a) l) :: utf8_split f (skipn (utf8_len a) l)
  end.

(** [str::chars] on UTF-8 text. *)
Definition utf8_chars (s : string) : list string :=
  utf8_split (String.length s) (String.list_ascii_of_string s).

(** [char::is_alphanumeric] on the ASCII chars and the Latin-1 letters
    U+00C0 to U+00FF (two bytes, 0xC3 then a byte other than 0x97 for the
    multiplication sign and 0xB7 for the division sign). *)
Definition latin1_alphanumeric (c : string) : bool :=
  ascii_alphanumeric c ||
  match String.list_ascii_of_string c with
  | [a; b] =>
      Nat.eqb (Ascii.nat_of_ascii a) 195 &&
      negb (Nat.eqb (Ascii.nat_of_ascii b) 151) && negb (Nat.eqb (Ascii.nat_of_ascii b) 183)
  | _ => false
  end.

(** The Unicode tables on UTF-8 text up to the Latin-1 letters. *)
Definition unicode_latin1 : Unicode := {|
  to_lowercase := lower;
  chars := utf8_chars;
  is_alphanumeric := latin1_alphanumeric
|}.

(** Ordered-subsequence matching: [pattern] matches [choice] when its
    characters occur in order in [choice] (which targets SkimMatcherV2
    matches); the score counts the matched characters. *)
Fixpoint subseq_score (choice pattern : string) : option Z :=
  match pattern with
  | EmptyString => Some 0%Z
  | String p ps =>
      match choice with
      | EmptyString => None
      | String c cs =>
          if Ascii.eqb c p then option_map Z.succ (subseq_score cs ps)
          else subseq_score cs pattern
      end
  end.

#[export] Instance matcher_subseq : FuzzyMatcher := { fuzzy_match := subseq_score }.

(** The last component of a Windows path. *)
Fixpoint last_component_from (acc s : string) : string :=
  match s with
  | EmptyString => acc
  | String c s' =>
      if Ascii.eqb c "\"%char then last_component_from "" s'
      else last_component_from (acc ++ String c "") s'
  end.

#[export] Instance os_windows : OsStr := {
  file_name := fun p => let f := last_component_from "" p in
                        if String.eqb f "" then None else Some f;
  os_str_valid := fun _ => true
}.

#[export] Instance no_icons : IconBackend := {
  get_icon := fun _ _ => None;
  write_ok := fun _ => true
}.

#[export] Instance no_codec : CacheCodec := { from_str := fun _ => None }.

Definition entry_of (p : PathBuf) (d : string) (s : ProgramSource) : ProgramEntry :=
  {| path := p; name := lower d; display_name := d; source := s; icon_path := None |}.

Definition lnk_file (p : PathBuf) (r : LnkResult) : option WalkItem :=
  Some {| wi_path := p; wi_is_file := true; wi_lnk := r |}.

(** A Start Menu with a resolvable and a malformed shortcut, and one
    Program Files executable. *)
Definition notepad_lnk : WalkItem :=
  {| wi_path := "C:\Start Menu\Notepad.lnk"; wi_is_file := true;
     wi_lnk := LnkOk (Some "Notepad")
                 (Some {| local_base_path := Some "C:\Windows\notepad.exe" |}) |}.

Definition broken_lnk : WalkItem :=
  {| wi_path := "C:\Start Menu\Broken.lnk"; wi_is_file := true; wi_lnk := LnkErr |}.

Definition chrome_exe : WalkItem :=
  {| wi_path := "C:\Program Files\Chrome\chrome.exe"; wi_is_file := true; wi_lnk := LnkErr |}.

Definition roots_demo : Roots :=
  {| start_menu_walks := [[Some notepad_lnk; None; Some broken_lnk]];
     program_files_walks := [[Some chrome_exe]] |}.

(** Two malformed shortcuts whose stems differ only by case. *)
Definition app_upper_lnk : WalkItem :=
  {| wi_path := "C:\Start Menu\A\App.lnk"; wi_is_file := true; wi_lnk := LnkErr |}.

Definition app_lower_lnk : WalkItem :=
  {| wi_path := "C:\Start Menu\B\app.lnk"; wi_is_file := true; wi_lnk := LnkPanic |}.

Definition roots_dup : Roots :=
  {| start_menu_walks := [[Some app_upper_lnk; Some app_lower_lnk]];
     program_files_walks := [] |}.

(** The entries of the search examples. *)
Definition demo_entries : list ProgramEntry :=
  [entry_of "C:\Start Menu\Chrome.lnk" "Chrome" StartMenu;
   entry_of "C:\Program Files\CharMap\charmap.exe" "Char Map" ProgramFiles;
   entry_of "C:\Start Menu\Notepad.lnk" "Notepad" StartMenu].

(** 51 Start Menu entries named "App", with distinct one-character paths. *)
Definition apps : list ProgramEntry :=
  map (fun n => entry_of (String (Ascii.ascii_of_nat (48 + n)) "") "App" StartMenu) (seq 0 51).

Definition app50 : ProgramEntry := entry_of (String (Ascii.ascii_of_nat 98) "") "App" StartMenu.

(** The Start Menu entry of [roots_demo] whose shortcut resolves to
    C:\Windows\notepad.exe. *)
Definition notepad_entry : ProgramEntry :=
  {| path := "C:\Start Menu\Notepad.lnk"; name := "notepad"; display_name := "Notepad";
     source := StartMenu; icon_path := None |}.

(** The Program Files entry of [roots_demo]. *)
Definition chrome_entry : ProgramEntry :=
  {| path := "C:\Program Files\Chrome\chrome.exe"; name := "chrome"; display_name := "chrome";
     source := ProgramFiles; icon_path := None |}.

(** A window showing two results, the second one selected. *)
Definition two_results_app : App :=
  {| config := default_config; search_query := "n";
     search_results := [{| pr_path := "C:\Start Menu\Notepad.lnk"; pr_display_name := "Notepad";
                           pr_icon_path := None |};
                        {| pr_path := "C:\Program Files\Chrome\chrome.exe";
                           pr_display_name := "chrome"; pr_icon_path := None |}];
     selected_index := 1; is_indexing := false; indexed_count := 2 |}.

End Concrete.

(* ================================================================== *)
(** * Proofs *)

(* ------------------------------------------------------------------ *)
(** ** The stable sort *)

Section SortBy.
Context {A : Type} (cmp : A -> A -> comparison).

Lemma insert_by_perm x l : Permutation (insert_by cmp x l) (x :: l).
Proof.
  induction l as [|y l IH]; simpl; [done|].
  destruct (cmp x y); try done.
  rewrite IH. apply perm_swap.
Qed.

Lemma sort_by_perm l : Permutation (sort_by cmp l) l.
Proof.
  induction l as [|x l IH]; simpl; [done|].
  rewrite insert_by_perm, IH. done.
Qed.

Hypothesis cmp_antisym : forall a b, cmp a b = CompOpp (cmp b a).

Definition not_gt (a b : A) : Prop := cmp a b <> Gt.

Lemma insert_by_sorted x l :
  Sorted not_gt l -> Sorted not_gt (insert_by cmp x l).
Proof.
  induction l as [|y l IH]; simpl; intros Hs.
  - repeat constructor.
  - destruct (cmp x y) eqn:E.
    + constructor; [done|]. constructor. unfold not_gt. by rewrite E.
    + constructor; [done|]. constructor. unfold not_gt. by rewrite E.
    + apply Sorted_inv in Hs as [Hs Hh].
      constructor; [by apply IH|].
      destruct l as [|z l]; simpl.
      * constructor. unfold not_gt. rewrite cmp_antisym, E. done.
      * apply HdRel_inv in Hh.
        destruct (cmp x z); constructor; unfold not_gt;
          try (rewrite cmp_antisym, E; done); done.
Qed.

Lemma sort_by_sorted l : Sorted not_gt (sort_by cmp l).
Proof.
  induction l as [|x l IH]; simpl; [constructor|].
  by apply insert_by_sorted.
Qed.

(** Stability: a class [P] of elements that no member is greater than a
    non-member of keeps its relative order. *)
Section Stable.
Variable P : A -> bool.
Hypothesis P_convex : forall x y, P x = true -> cmp x y = Gt -> P y = false.

Lemma insert_by_filter x l :
  List.filter P (insert_by cmp x l) =
  if P x then x :: List.filter P l else List.filter P l.
Proof.
  induction l as [|y l IH]; simpl.
  - destruct (P x); done.
  - destruct (cmp x y) eqn:E; simpl; try (destruct (P x), (P y); done).
    rewrite IH.
    destruct (P x) eqn:Px; destruct (P y) eqn:Py; try done.
    rewrite (P_convex x y Px E) in Py. discriminate.
Qed.

Lemma sort_by_filter l : List.filter P (sort_by cmp l) = List.filter P l.
Proof.
  induction l as [|x l IH]; simpl; [done|].
  rewrite insert_by_filter, IH. done.
Qed.

End Stable.
End SortBy.

Lemma sort_by_map {A B} (cmp : B -> B -> comparison) (g : A -> B) (l : list A) :
  sort_by cmp (map g l) = map g (sort_by (fun a b => cmp (g a) (g b)) l).
Proof.
  induction l as [|x l IH]; simpl; [done|].
  rewrite IH. clear IH.
  induction (sort_by (fun a b => cmp (g a) (g b)) l) as [|y r IHr]; simpl; [done|].
  destruct (cmp (g x) (g y)); simpl; try done. rewrite IHr. done.
Qed.

Lemma Sorted_firstn {A} (R : A -> A -> Prop) n l :
  Sorted R l -> Sorted R (firstn n l).
Proof.
  revert n. induction l as [|x l IH]; intros n Hs; destruct n; simpl; try constructor.
  - apply Sorted_inv in Hs as [Hs _]. by apply IH.
  - apply Sorted_inv in Hs as [_ Hh].
    destruct l as [|y l]; destruct n; simpl; try constructor.
    by apply HdRel_inv in Hh.
Qed.

Lemma filter_map_app {A B} (f : A -> option B) l1 l2 :
  filter_map f (l1 ++ l2) = (filter_map f l1 ++ filter_map f l2)%list.
Proof.
  induction l1 as [|x l1 IH]; simpl; [done|].
  destruct (f x); rewrite IH; done.
Qed.

Lemma in_filter_map {A B} (f : A -> option B) l y :
  In y (filter_map f l) -> exists x, In x l /\ f x = Some y.
Proof.
  induction l as [|x l IH]; simpl; [done|].
  destruct (f x) eqn:E.
  - intros [<-|Hy]; [by exists x; auto|].
    destruct (IH Hy) as (x' & ? & ?). exists x'. auto.
  - intros Hy. destruct (IH Hy) as (x' & ? & ?). exists x'. auto.
Qed.

Lemma filter_map_in {A B} (f : A -> option B) l x y :
  In x l -> f x = Some y -> In y (filter_map f l).
Proof.
  intros Hx Hf. induction l as [|x' l IH]; simpl in *; [done|].
  destruct Hx as [<-|Hx]; [rewrite Hf; by left|].
  destruct (f x'); [right|]; by apply IH.
Qed.

Lemma Permutation_filter_length {A} (f : A -> bool) l l' :
  Permutation l l' -> length (List.filter f l) = length (List.filter f l').
Proof.
  induction 1 as [|x l l' _ IH|x y l|l l' l'' _ IH1 _ IH2]; simpl.
  - done.
  - destruct (f x); simpl; lia.
  - destruct (f x), (f y); simpl; lia.
  - lia.
Qed.

Lemma StronglySorted_map_inv {A B} (R : B -> B -> Prop) (f : A -> B) l :
  StronglySorted R (map f l) -> StronglySorted (fun a b => R (f a) (f b)) l.
Proof.
  induction l as [|x l IH]; simpl; intros H; [constructor|].
  apply StronglySorted_inv in H as [H1 H2]. constructor; [by apply IH|].
  rewrite List.Forall_forall in H2 |- *. intros y Hy. apply H2, in_map, Hy.
Qed.

Lemma StronglySorted_mid {A} (R : A -> A -> Prop) l1 x l2 :
  StronglySorted R (l1 ++ x :: l2) ->
  Forall (fun a => R a x) l1 /\ Forall (R x) l2.
Proof.
  induction l1 as [|a l1 IH]; simpl; intros H;
    apply StronglySorted_inv in H as [H1 H2].
  - split; [constructor|done].
  - destruct (IH H1) as [Ha Hb]. split; [|done]. constructor; [|done].
    rewrite List.Forall_forall in H2. apply H2, in_or_app. right. by left.
Qed.

Lemma in_firstn_split {A} n (l : list A) x :
  In x (firstn n l) -> exists l1 l2, l = (l1 ++ x :: l2)%list /\ length l1 < n.
Proof.
  intros H. apply in_split in H as (l1 & l2 & E).
  exists l1, (l2 ++ skipn n l)%list. split.
  - rewrite <- (firstn_skipn n l) at 1. rewrite E, <- app_assoc. done.
  - assert (Hn : length (firstn n l) <= n) by (rewrite length_firstn; lia).
    rewrite E, length_app in Hn. simpl in Hn. lia.
Qed.

Lemma in_firstn_mid {A} n (l1 l2 : list A) x :
  length l1 < n -> In x (firstn n (l1 ++ x :: l2)).
Proof.
  intros Hn. rewrite firstn_app. apply in_or_app. right.
  destruct (n - length l1) eqn:E; [lia|]. by left.
Qed.

Lemma firstn_min_length {A} n (l : list A) : firstn (Nat.min n (length l)) l = firstn n l.
Proof.
  revert l. induction n as [|n IH]; intros [|x l]; simpl; try done.
  f_equal. apply IH.
Qed.

Lemma in_firstn {A} n (l : list A) x : In x (firstn n l) -> In x l.
Proof. intros Hx. rewrite <- (firstn_skipn n l). apply in_or_app. by left. Qed.

Lemma Sorted_mono {A} (R R' : A -> A -> Prop) l :
  (forall a b, R a b -> R' a b) -> Sorted R l -> Sorted R' l.
Proof.
  intros HR Hs. induction Hs as [|x l Hs IH Hh]; constructor; [done|].
  destruct Hh; constructor. by apply HR.
Qed.

Lemma StronglySorted_app_l {A} (R : A -> A -> Prop) l1 l2 :
  StronglySorted R (l1 ++ l2) -> StronglySorted R l1.
Proof.
  induction l1 as [|x l1 IH]; simpl; intros Hs; [constructor|].
  apply StronglySorted_inv in Hs as [Hs Hf].
  constructor; [by apply IH|].
  rewrite List.Forall_forall in Hf |- *. intros y Hy. apply Hf, in_or_app. by left.
Qed.

Lemma StronglySorted_map_filter {A B} (R : A -> A -> Prop) (f : B -> A) (P : B -> bool) l :
  StronglySorted R (map f l) -> StronglySorted R (map f (List.filter P l)).
Proof.
  induction l as [|x l IH]; simpl; intros Hs; [constructor|].
  apply StronglySorted_inv in Hs as [Hs Hf].
  destruct (P x); simpl; [|by apply IH].
  constructor; [by apply IH|].
  rewrite List.Forall_forall in Hf |- *. intros y Hy. apply Hf.
  apply in_map_iff in Hy as (z & <- & Hz). apply in_map.
  by apply filter_In in Hz as [? _].
Qed.

(* ------------------------------------------------------------------ *)
(** ** The search engine *)

Section SearchProofs.
Context `{FuzzyMatcher} `{Unicode}.

Lemma cmp_score_antisym a b : cmp_score a b = CompOpp (cmp_score b a).
Proof. unfold cmp_score. apply Z.compare_antisym. Qed.

Lemma score_entry_entry ql e r : score_entry ql e = Some r -> entry r = e.
Proof.
  unfold score_entry. destruct (option_max _ _); [|done].
  intros [= <-]. done.
Qed.

Lemma tag_score_snd ql k (l : list ProgramEntry) :
  map snd (filter_map (tag_score ql) (enumerate_from k l)) = filter_map (score_entry ql) l.
Proof.
  revert k. induction l as [|e l IH]; intros k; simpl; [done|].
  unfold tag_score at 1; simpl.
  destruct (score_entry ql e); simpl; rewrite IH; done.
Qed.

Lemma tag_score_index ql k (l : list ProgramEntry) i r :
  In (i, r) (filter_map (tag_score ql) (enumerate_from k l)) ->
  k <= i /\ nth_error l (i - k) = Some (entry r).
Proof.
  revert k. induction l as [|e l IH]; intros k; simpl; [done|].
  unfold tag_score at 1; simpl.
  destruct (score_entry ql e) as [r'|] eqn:E; simpl.
  - intros [[= <- <-] | Hin].
    + split; [lia|]. rewrite Nat.sub_diag. simpl. by rewrite (score_entry_entry _ _ _ E).
    + destruct (IH (S k) Hin) as [Hle Hn]. split; [lia|].
      replace (i - k) with (S (i - S k)) by lia. done.
  - intros Hin. destruct (IH (S k) Hin) as [Hle Hn]. split; [lia|].
    replace (i - k) with (S (i - S k)) by lia. done.
Qed.

Lemma tag_score_increasing ql k (l : list ProgramEntry) :
  StronglySorted lt (map fst (filter_map (tag_score ql) (enumerate_from k l))).
Proof.
  revert k. induction l as [|e l IH]; intros k; simpl; [constructor|].
  unfold tag_score at 1; simpl.
  destruct (score_entry ql e) eqn:E; simpl; [|done].
  constructor; [done|].
  rewrite List.Forall_forall. intros i Hi.
  apply in_map_iff in Hi as ([i' r] & <- & Hin).
  apply tag_score_index in Hin as [? _]. simpl. lia.
Qed.


(** C3: with the empty query, [search] returns the first
    [min(20, |entries|)] entries in their stored order, each with score 0. *)
Theorem search_empty_query (entries : list ProgramEntry) :
  length (search "" entries) = Nat.min 20 (length entries) /\
  map entry (search "" entries) = firstn (Nat.min 20 (length entries)) entries /\
  Forall (fun r => score r = 0%Z) (search "" entries).
Proof.
  change (search "" entries) with (map (fun e => mkResult e 0%Z) (firstn 20 entries)).
  rewrite length_map, length_firstn.
  split; [done|]. split.
  - rewrite map_map, firstn_min_length.
    induction (firstn 20 entries) as [|e l _]; simpl; [done|].
    f_equal. apply map_id.
  - apply List.Forall_forall. intros r Hr.
    apply in_map_iff in Hr as (e & <- & _). done.
Qed.

Lemma search_nonempty (query : string) (entries : list ProgramEntry) :
  query <> "" ->
  search query entries =
  firstn 50 (sort_by cmp_score (filter_map (score_entry (to_lowercase query)) entries)).
Proof.
  intros Hq. unfold search.
  destruct (String.eqb_spec query ""); [done|]. done.
Qed.

(** C2: for a non-empty query, the results are sorted by score
    descending, results of equal score keep the order of their indices in
    the input list (the sort is stable), and there are at most 50 of them. *)
Theorem search_sorted_stable_capped (query : string) (entries : list ProgramEntry) :
  query <> "" ->
  length (search query entries) <= 50 /\
  Sorted (fun a b => (score b <= score a)%Z) (search query entries) /\
  exists tagged : list (nat * SearchResult),
    map snd tagged = search query entries /\
    (forall i r, In (i, r) tagged -> nth_error entries i = Some (entry r)) /\
    (forall s, StronglySorted lt
                 (map fst (List.filter (fun p => Z.eqb (score (snd p)) s) tagged))).
Proof.
  intros Hq. rewrite (search_nonempty _ _ Hq).
  set (ql := to_lowercase query).
  split; [rewrite length_firstn; lia|].
  split.
  { apply Sorted_firstn.
    eapply Sorted_mono; [|apply sort_by_sorted, cmp_score_antisym].
    intros a b. unfold not_gt, cmp_score. by rewrite Z.compare_le_iff. }
  set (U := filter_map (tag_score ql) (enumerate_from 0 entries)).
  set (cmp_tag := fun a b : nat * SearchResult => cmp_score (snd a) (snd b)).
  exists (firstn 50 (sort_by cmp_tag U)).
  split; [|split].
  - rewrite <- firstn_map. f_equal.
    subst cmp_tag. rewrite <- sort_by_map. f_equal. apply tag_score_snd.
  - intros i r Hin. apply in_firstn, (Permutation_in _ (sort_by_perm _ _)) in Hin.
    apply tag_score_index in Hin as [_ Hn]. by rewrite Nat.sub_0_r in Hn.
  - intros s.
    set (P := fun p : nat * SearchResult => Z.eqb (score (snd p)) s).
    assert (Hconv : forall x y, P x = true -> cmp_tag x y = Gt -> P y = false).
    { subst P cmp_tag. unfold cmp_score. intros x y Hx Hg.
      apply Z.eqb_eq in Hx. apply Z.eqb_neq. rewrite Z.compare_gt_iff in Hg. lia. }
    pose proof (sort_by_filter cmp_tag P Hconv U) as Hst.
    pose proof (tag_score_increasing ql 0 entries) as Hinc. fold U in Hinc.
    apply (StronglySorted_map_filter _ _ P) in Hinc.
    rewrite <- Hst, <- (firstn_skipn 50 (sort_by cmp_tag U)), List.filter_app, map_app in Hinc.
    by apply StronglySorted_app_l in Hinc.
Qed.

Local Abbreviation ranked :=
  (fun a b : nat * SearchResult => search_before (score (snd b)) (fst b) a = true).

Lemma search_before_iff s i p :
  search_before s i p = true <->
  (s < score (snd p))%Z \/ (score (snd p) = s /\ fst p < i).
Proof.
  unfold search_before.
  rewrite orb_true_iff, andb_true_iff, Z.ltb_lt, Z.eqb_eq, Nat.ltb_lt. done.
Qed.

Lemma insert_ranked x l :
  StronglySorted ranked l -> Forall (fun y => fst x < fst y) l ->
  StronglySorted ranked (insert_by (fun a b => cmp_score (snd a) (snd b)) x l).
Proof.
  induction l as [|y l IH]; intros Hs Hf; simpl; [repeat constructor|].
  apply StronglySorted_inv in Hs as [Hs Hy].
  rewrite List.Forall_forall in Hf, Hy.
  unfold cmp_score at 1.
  destruct (Z.compare (score (snd y)) (score (snd x))) eqn:E.
  1, 2: (assert (Hle : (score (snd y) <= score (snd x))%Z)
           by (destruct (Z.compare_spec (score (snd y)) (score (snd x))); done || lia);
         constructor; [constructor; [done|by rewrite List.Forall_forall]|];
         rewrite List.Forall_forall; intros z Hz;
         assert (Hz' : (score (snd z) <= score (snd y))%Z /\ fst x < fst z);
         [destruct Hz as [<-|Hz]; [split; [lia|by apply Hf; left]|];
          pose proof (Hy z Hz) as Hyz; simpl in Hyz; rewrite search_before_iff in Hyz;
          split; [lia|by apply Hf; right]|];
         simpl; rewrite search_before_iff; lia).
  rewrite Z.compare_gt_iff in E.
  constructor.
  - apply IH; [done|]. rewrite List.Forall_forall. intros z Hz. apply Hf. by right.
  - rewrite List.Forall_forall. intros z Hz.
    apply (Permutation_in _ (insert_by_perm _ _ _)) in Hz as [<-|Hz].
    + simpl. rewrite search_before_iff. lia.
    + by apply Hy.
Qed.

Lemma sort_ranked l :
  StronglySorted (fun a b => fst a < fst b) l ->
  StronglySorted ranked (sort_by (fun a b => cmp_score (snd a) (snd b)) l).
Proof.
  induction l as [|x l IH]; simpl; intros Hs; [constructor|].
  apply StronglySorted_inv in Hs as [Hs Hx].
  apply insert_ranked; [by apply IH|].
  rewrite List.Forall_forall in Hx |- *. intros y Hy.
  apply Hx. by apply (Permutation_in _ (sort_by_perm _ _)) in Hy.
Qed.

Lemma filter_before_mid l1 x l2 :
  StronglySorted ranked (l1 ++ x :: l2) ->
  length (List.filter (search_before (score (snd x)) (fst x)) (l1 ++ x :: l2)) = length l1.
Proof.
  intros Hs. apply StronglySorted_mid in Hs as [H1 H2].
  rewrite List.filter_app, length_app.
  assert (E1 : List.filter (search_before (score (snd x)) (fst x)) l1 = l1).
  { induction H1 as [|a l1 Ha _ IH]; simpl; [done|]. by rewrite Ha, IH. }
  assert (E2 : List.filter (search_before (score (snd x)) (fst x)) (x :: l2) = []).
  { simpl. replace (search_before (score (snd x)) (fst x) x) with false.
    2:{ symmetry. apply not_true_iff_false. rewrite search_before_iff. lia. }
    induction H2 as [|b l2 Hb _ IH]; simpl; [done|].
    replace (search_before (score (snd x)) (fst x) b) with false; [done|].
    symmetry. apply not_true_iff_false. rewrite search_before_iff.
    simpl in Hb. rewrite search_before_iff in Hb. lia. }
  rewrite E1, E2. simpl. lia.
Qed.

Lemma rank_mid ql entries l1 x l2 :
  sort_by (fun a b => cmp_score (snd a) (snd b))
    (filter_map (tag_score ql) (enumerate_from 0 entries)) = (l1 ++ x :: l2)%list ->
  search_rank ql entries (fst x) (score (snd x)) = length l1.
Proof.
  intros E. unfold search_rank.
  rewrite <- (Permutation_filter_length _ _ _
    (sort_by_perm (fun a b => cmp_score (snd a) (snd b)) _)), E.
  apply filter_before_mid. rewrite <- E.
  apply sort_ranked, StronglySorted_map_inv, tag_score_increasing.
Qed.

Lemma tag_score_in ql k (l : list ProgramEntry) i e r :
  nth_error l i = Some e -> score_entry ql e = Some r ->
  In (k + i, r) (filter_map (tag_score ql) (enumerate_from k l)).
Proof.
  intros Hi Hr. apply (filter_map_in _ _ (k + i, e)); [|by unfold tag_score; simpl; rewrite Hr].
  revert k i Hi. induction l as [|e' l IH]; intros k i Hi; [by destruct i|].
  destruct i as [|i]; simpl in Hi.
  - injection Hi as <-. left. f_equal. lia.
  - right. replace (k + S i) with (S k + i) by lia. by apply IH.
Qed.

(** C1 (amended): for a non-empty query and an entry [e] of the list,
    [e] is among the matches (the list [filter_map] builds, before the sort
    and the cut) exactly when the match of the lowercased query succeeds
    against its lowercased display name or its stored short name; an entry
    on which both fail is never returned; every returned result for [e]
    scores max(display-name score, short-name score), plus 50 when [e] comes
    from the Start Menu, plus 100 when its lowercased display name starts
    with the lowercased query; and a matching [e] is returned exactly when,
    at one of its indices [i] in the list, fewer than 50 matching entries
    come before it in the sorted order (a higher score, or the same score
    and a smaller index): the results are cut to 50. *)
Theorem search_scoring (query : string) (entries : list ProgramEntry) (e : ProgramEntry) :
  query <> "" -> In e entries ->
  let ql := to_lowercase query in
  let base := option_max (fuzzy_match (to_lowercase (display_name e)) ql)
                         (fuzzy_match (name e) ql) in
  let bonus := ((match source e with StartMenu => 50 | ProgramFiles => 0 end)
                + (if String.prefix ql (to_lowercase (display_name e)) then 100 else 0))%Z in
  ((exists r, In r (filter_map (score_entry ql) entries) /\ entry r = e) <-> base <> None) /\
  (base = None -> forall r, In r (search query entries) -> entry r <> e) /\
  (forall r, In r (search query entries) -> entry r = e ->
     exists b, base = Some b /\ score r = (b + bonus)%Z) /\
  (forall b, base = Some b ->
     ((exists r, In r (search query entries) /\ entry r = e) <->
      exists i, nth_error entries i = Some e /\ search_rank ql entries i (b + bonus) < 50)).
Proof.
  intros Hq Hin ql base bonus.
  assert (Eb : option_max (fuzzy_match (to_lowercase (display_name e)) ql)
                          (fuzzy_match (name e) ql) = base) by done.
  assert (Ebonus : ((match source e with StartMenu => 50 | ProgramFiles => 0 end)
           + (if String.prefix ql (to_lowercase (display_name e)) then 100 else 0))%Z
           = bonus) by done.
  clearbody base bonus.
  assert (Hse : forall b, base = Some b -> score_entry ql e = Some (mkResult e (b + bonus)%Z)).
  { intros b Hb. unfold score_entry. rewrite Eb, Hb, <- Ebonus. simpl. do 2 f_equal. lia. }
  assert (Hsn : base = None -> score_entry ql e = None).
  { intros Hb. unfold score_entry. rewrite Eb, Hb. done. }
  rewrite (search_nonempty _ _ Hq). fold ql.
  assert (Hsc : forall r, In r (firstn 50 (sort_by cmp_score (filter_map (score_entry ql) entries))) ->
            exists e', In e' entries /\ score_entry ql e' = Some r).
  { intros r Hr. apply in_firstn, (Permutation_in _ (sort_by_perm _ _)) in Hr.
    by apply in_filter_map in Hr. }
  assert (H2 : forall r, In r (firstn 50 (sort_by cmp_score (filter_map (score_entry ql) entries))) ->
            entry r = e -> exists b, base = Some b /\ score r = (b + bonus)%Z).
  { intros r Hr <-. destruct (Hsc r Hr) as (e' & _ & E).
    pose proof (score_entry_entry _ _ _ E) as He. subst e'.
    unfold score_entry in E. rewrite Eb in E.
    destruct base as [b|]; simpl in E; [|discriminate].
    exists b. split; [done|].
    injection E as E. rewrite <- E. simpl. rewrite <- Ebonus. lia. }
  split; [|split; [|split]].
  - split.
    + intros (r & Hr & He) Hb. apply in_filter_map in Hr as (e' & _ & E).
      pose proof (score_entry_entry _ _ _ E) as He'. rewrite He' in He. subst e'.
      rewrite (Hsn Hb) in E. discriminate.
    + intros Hb. destruct base as [b|]; [|done].
      exists (mkResult e (b + bonus)). split; [|done].
      apply (filter_map_in _ _ e); [done|]. by apply Hse.
  - intros Hb r Hr He. destruct (H2 r Hr He) as (b & Hb' & _). congruence.
  - exact H2.
  - intros b Hb.
    set (T := filter_map (tag_score ql) (enumerate_from 0 entries)).
    set (cmp_tag := fun a b : nat * SearchResult => cmp_score (snd a) (snd b)).
    assert (HS : map snd (firstn 50 (sort_by cmp_tag T)) =
                 firstn 50 (sort_by cmp_score (filter_map (score_entry ql) entries))).
    { rewrite <- firstn_map. f_equal.
      subst cmp_tag. rewrite <- sort_by_map. f_equal. apply tag_score_snd. }
    split.
    + intros (r & Hr & He).
      destruct (H2 r Hr He) as (b' & Hb' & Hscore).
      rewrite Hb in Hb'. injection Hb' as <-.
      rewrite <- HS in Hr. apply in_map_iff in Hr as ([i r'] & Hx & Hxin). simpl in Hx. subst r'.
      apply in_firstn_split in Hxin as (l1 & l2 & Esplit & Hlen).
      assert (HxT : In (i, r) T).
      { apply (Permutation_in _ (sort_by_perm cmp_tag _)). rewrite Esplit.
        apply in_or_app. right. by left. }
      apply tag_score_index in HxT as [_ Hn]. rewrite Nat.sub_0_r, He in Hn.
      exists i. split; [done|].
      pose proof (rank_mid ql entries l1 (i, r) l2 Esplit) as Hrk. simpl in Hrk.
      rewrite <- Hscore, Hrk. done.
    + intros (i & Hi & Hr).
      pose proof (tag_score_in ql 0 entries i e _ Hi (Hse b Hb)) as HT. simpl in HT.
      apply (Permutation_in _ (Permutation_sym (sort_by_perm cmp_tag T))) in HT.
      apply in_split in HT as (l1 & l2 & Esplit).
      pose proof (rank_mid ql entries l1 (i, mkResult e (b + bonus)) l2 Esplit) as Hrk.
      simpl in Hrk. rewrite Hrk in Hr.
      exists (mkResult e (b + bonus)). split; [|done].
      rewrite <- HS. apply in_map_iff. exists (i, mkResult e (b + bonus)).
      split; [done|]. rewrite Esplit. by apply in_firstn_mid.
Qed.

End SearchProofs.

(* ------------------------------------------------------------------ *)
(** ** The scan loop *)

Lemma app_snoc_split {A} (P : list A) c pre x post :
  (P ++ [c] = pre ++ x :: post)%list <->
  (exists post', post = (post' ++ [c])%list /\ P = (pre ++ x :: post')%list) \/
  (pre = P /\ x = c /\ post = []).
Proof.
  split.
  - intros Heq. destruct post as [|y ys].
    + right. apply app_inj_tail in Heq as [-> ->]. done.
    + left. destruct (exists_last (l := y :: ys) ltac:(discriminate)) as (post' & z & Ez).
      rewrite Ez in Heq |- *. exists post'.
      rewrite app_comm_cons, app_assoc in Heq.
      apply app_inj_tail in Heq as [-> ->]. done.
  - intros [(post' & -> & ->)|(-> & -> & ->)].
    + by rewrite <- app_assoc.
    + done.
Qed.

Lemma app_cons_compare {A} (l1 l2 r1 r2 : list A) x y :
  (l1 ++ x :: l2 = r1 ++ y :: r2)%list ->
  In x r1 \/ (l1 = r1 /\ x = y) \/ (exists m, l1 = (r1 ++ y :: m)%list).
Proof.
  revert r1. induction l1 as [|a l1 IH]; intros r1 E.
  - destruct r1 as [|b r1]; simpl in E; injection E as E1 E2.
    + right. left. done.
    + left. subst. by left.
  - destruct r1 as [|b r1]; simpl in E; injection E as E1 E2.
    + right. right. exists l1. by subst.
    + subst b. destruct (IH r1 E2) as [Hin|[[-> ->]|(m & ->)]].
      * left. by right.
      * right. left. done.
      * right. right. by exists m.
Qed.

Section ScanProofs.
Context `{Unicode} `{OsStr} `{IconBackend}.

Lemma index_directory_fold walk source dir st :
  index_directory walk source dir st =
  fold_left (admit_candidate dir) (filter_map (prepare_item source) walk) st.
Proof.
  unfold index_directory. revert st.
  induction walk as [|it walk IH]; intros st; simpl; [done|].
  unfold index_item at 2. destruct (prepare_item source it); simpl; apply IH.
Qed.

Lemma index_roots_fold ws source dir st :
  fold_left (fun st w => index_directory w source dir st) ws st =
  fold_left (admit_candidate dir) (concat (map (filter_map (prepare_item source)) ws)) st.
Proof.
  revert st. induction ws as [|w ws IH]; intros st; simpl; [done|].
  rewrite fold_left_app, IH, index_directory_fold. done.
Qed.

Lemma scan_candidates roots dir fs :
  scan_working roots dir fs = fold_left (admit_candidate dir) (candidates roots) (scan_start fs).
Proof.
  unfold scan_working, candidates.
  rewrite !index_roots_fold, fold_left_app. done.
Qed.

Lemma extract_icon_shape target d dir fs :
  fst (extract_icon target d dir fs) = None \/
  fst (extract_icon target d dir fs) = Some (join dir (icon_filename d)).
Proof.
  unfold extract_icon.
  case_decide; [by right|].
  destruct (get_icon target 48); [|by left].
  destruct (write_ok _); [by right|by left].
Qed.

Lemma admit_inv dir fs P :
  scan_inv dir P (fold_left (admit_candidate dir) P (scan_start fs)).
Proof.
  induction P as [|c P IH] using rev_ind.
  - simpl. split; [|split; [|split]].
    + intros k. simpl. split; [|done]. intros Hk. by apply lookup_empty_is_Some in Hk.
    + constructor.
    + intros t. simpl. split; [done|].
      intros (pre & c & post & Heq & _). by destruct pre.
    + constructor.
  - rewrite fold_left_app. simpl.
    set (st := fold_left (admit_candidate dir) P (scan_start fs)) in *.
    destruct IH as (Hseen & Hnd & Hview & Hicon).
    assert (Hsplit : forall t, (exists pre c' post, (P ++ [c])%list = (pre ++ c' :: post)%list /\
              cand_view c' = t /\
              Forall (fun c'' => dedup_key (c_display c'') <> dedup_key (c_display c')) pre) <->
            (exists pre c' post, P = (pre ++ c' :: post)%list /\ cand_view c' = t /\
              Forall (fun c'' => dedup_key (c_display c'') <> dedup_key (c_display c')) pre) \/
            (cand_view c = t /\
              Forall (fun c'' => dedup_key (c_display c'') <> dedup_key (c_display c)) P)).
    { intros t. split.
      - intros (pre & c' & post & Heq & Hv & Hf).
        apply app_snoc_split in Heq as [(post' & _ & ->)|(-> & -> & ->)].
        + left. exists pre, c', post'. done.
        + right. done.
      - intros [(pre & c' & post & -> & Hv & Hf)|(Hv & Hf)].
        + exists pre, c', (post ++ [c])%list. split; [|done].
          by rewrite <- app_assoc.
        + exists P, c, []. done. }
    unfold admit_candidate.
    destruct (seen st !! to_lowercase (c_display c)) as [b|] eqn:Hk.
    + (* the key was seen: the candidate is skipped *)
      assert (Hin : In (dedup_key (c_display c)) (map (fun c => dedup_key (c_display c)) P)).
      { apply Hseen. unfold dedup_key. rewrite Hk. done. }
      split; [|split; [done|split; [|done]]].
      * intros k. rewrite Hseen, map_app, in_app_iff. simpl.
        split; [by left|]. intros [?|[<-|[]]]; [done|done].
      * intros t. rewrite Hview, Hsplit. split; [by left|].
        intros [?|(_ & Hf)]; [done|].
        apply in_map_iff in Hin as (c' & Hc' & Hc'in).
        rewrite List.Forall_forall in Hf. by apply (Hf c') in Hc'in.
    + (* a new key: the candidate becomes an entry *)
      assert (Hnin : ~ In (dedup_key (c_display c)) (map (fun c => dedup_key (c_display c)) P)).
      { intros Hin. apply Hseen in Hin. unfold dedup_key in Hin. rewrite Hk in Hin.
        by destruct Hin. }
      pose proof (extract_icon_shape (c_target c) (c_display c) dir (icon_files st)) as Hsh.
      destruct (extract_icon (c_target c) (c_display c) dir (icon_files st)) as [icon fs'].
      simpl in Hsh. unfold scan_inv. cbn [seen programs icon_files].
      split; [|split; [|split]].
      * intros k. rewrite lookup_insert_is_Some', Hseen, map_app, in_app_iff. simpl.
        unfold dedup_key. split; [intros [?|?]; auto|intros [?|[?|[]]]; auto].
      * rewrite map_app. simpl.
        apply NoDup_app. split; [done|]. split; [|apply NoDup_singleton].
        intros k Hk1 Hk2. apply list_elem_of_singleton in Hk2. subst k.
        apply Hnin. apply list_elem_of_In in Hk1.
        apply in_map_iff in Hk1 as (e & He & Hein).
        assert (Hv : In (entry_view e) (map entry_view (programs st))) by (by apply in_map).
        apply Hview in Hv as (pre & c' & post & -> & Hv & _).
        unfold entry_view, cand_view in Hv. injection Hv as _ Hd _.
        rewrite <- He, <- Hd.
        apply (in_map (fun c => dedup_key (c_display c))), in_or_app. right. by left.
      * intros t. rewrite map_app, in_app_iff, Hview, Hsplit. simpl.
        split; intros [?|?]; auto.
        -- right. destruct H2 as [<-|[]]. split; [done|].
           apply List.Forall_forall. intros c' Hc' Heq. apply Hnin.
           rewrite <- Heq. by apply (in_map (fun c => dedup_key (c_display c))).
        -- right. left. destruct H2 as [<- _]. done.
      * apply Forall_app. split; [done|]. constructor; [|constructor].
        unfold icon_shape. simpl. done.
Qed.

Lemma rsplit_before_nonempty f b a :
  rsplit_file_at_dot f = (Some b, Some a) -> b <> "".
Proof.
  unfold rsplit_file_at_dot.
  destruct (String.eqb f ".."); [done|].
  destruct (split_last_dot f) as [[x y]|]; [|done].
  destruct (String.eqb_spec x ""); [done|]. by intros [= <- _].
Qed.

Lemma stem_or_unknown_nonempty p x : extension p = Some x -> stem_or_unknown p <> "".
Proof.
  unfold stem_or_unknown, file_stem, extension.
  destruct (file_name p) as [f|]; [|done].
  destruct (rsplit_file_at_dot f) as [[b|] [a|]] eqn:Hr; try done.
  intros _. apply rsplit_before_nonempty in Hr.
  unfold to_str. destruct (os_str_valid b); done.
Qed.

Lemma get_display_nonempty w ext x :
  extension (wi_path w) = Some x -> fst (get_display_name_and_target w ext) <> "".
Proof.
  intros Hx. pose proof (stem_or_unknown_nonempty _ _ Hx) as Hs.
  unfold get_display_name_and_target.
  repeat case_match; simpl; try done.
  all: simplify_eq; by apply String.eqb_neq.
Qed.

Lemma get_display_failed w ext :
  wi_lnk w = LnkErr \/ wi_lnk w = LnkPanic ->
  get_display_name_and_target w ext = (stem_or_unknown (wi_path w), wi_path w).
Proof.
  intros Hl. unfold get_display_name_and_target.
  destruct Hl as [Hl|Hl]; rewrite Hl; repeat case_match; done.
Qed.

Lemma prepare_item_some src it c :
  prepare_item src it = Some c ->
  exists w x, it = Some w /\ wi_is_file w = true /\ extension (wi_path w) = Some x /\
    c_path c = wi_path w /\ c_source c = src /\ c_display c <> "" /\
    (wi_lnk w = LnkErr \/ wi_lnk w = LnkPanic ->
       c_display c = stem_or_unknown (wi_path w) /\ c_target c = wi_path w).
Proof.
  intros Hp. unfold prepare_item in Hp.
  set (gd := get_display_name_and_target) in Hp.
  assert (Egd : gd = get_display_name_and_target) by done. clearbody gd.
  destruct it as [w|]; [|done].
  destruct (wi_is_file w) eqn:Hf; [|done]. simpl in Hp.
  destruct (extension (wi_path w)) as [x|] eqn:Hx; [|done].
  destruct (to_str x) as [x'|]; [|done].
  destruct (existsb _ _); [|done]. simpl in Hp.
  match type of Hp with context [if ?b then None else _] => destruct b end; [done|].
  destruct (gd w (Some (to_lowercase x'))) as [d tp] eqn:Hg. rewrite Egd in Hg.
  injection Hp as <-. simpl.
  exists w, x. do 5 (split; [done|]). split.
  - pose proof (get_display_nonempty w (Some (to_lowercase x')) x Hx) as Hn.
    by rewrite Hg in Hn.
  - intros Hl. rewrite get_display_failed in Hg; [|done]. by injection Hg as <- <-.
Qed.

Lemma finalize_perm l : Permutation (finalize l) l.
Proof. apply sort_by_perm. Qed.

Lemma scan_view roots dir fs t :
  In t (map entry_view (fst (scan roots dir fs))) <->
  exists pre c post, candidates roots = (pre ++ c :: post)%list /\ cand_view c = t /\
    Forall (fun c' => dedup_key (c_display c') <> dedup_key (c_display c)) pre.
Proof.
  destruct (admit_inv dir fs (candidates roots)) as (_ & _ & Hview & _).
  simpl. rewrite scan_candidates, <- Hview.
  split; apply Permutation_in, Permutation_map;
    [|apply Permutation_sym]; apply finalize_perm.
Qed.

Lemma candidates_walked roots :
  candidates roots = filter_map (fun x => prepare_item (fst x) (snd x)) (walked_items roots).
Proof.
  unfold candidates, walked_items.
  assert (Hw : forall src ws, concat (map (filter_map (prepare_item src)) ws) =
    filter_map (fun x => prepare_item (fst x) (snd x)) (concat (map (map (pair src)) ws))).
  { intros src ws. induction ws as [|w ws IH]; simpl; [done|].
    rewrite IH, filter_map_app. f_equal.
    induction w as [|it w IHw]; simpl; [done|].
    destruct (prepare_item src it); rewrite IHw; done. }
  rewrite !Hw, filter_map_app. done.
Qed.

Lemma scan_entry_origin roots dir fs e :
  In e (fst (scan roots dir fs)) ->
  exists c, In c (candidates roots) /\ cand_view c = entry_view e.
Proof.
  intros He. apply (in_map entry_view), scan_view in He as (pre & c & post & Hc & Hv & _).
  exists c. split; [|done]. rewrite Hc. apply in_or_app. right. by left.
Qed.

Lemma candidate_origin roots c :
  In c (candidates roots) ->
  exists src w, In (src, Some w) (walked_items roots) /\ prepare_item src (Some w) = Some c.
Proof.
  rewrite candidates_walked. intros Hc.
  apply in_filter_map in Hc as ([src it] & Hin & Hp). simpl in Hp.
  destruct (prepare_item_some _ _ _ Hp) as (w & _ & -> & _).
  exists src, w. done.
Qed.

(** C5: within the output of one scan no two entries have the same
    lowercased display name, and an entry is produced for a candidate
    exactly when no candidate before it (Start Menu roots first, then
    Program Files, each in walk order) had the same lowercased display
    name. *)
Theorem scan_dedup (roots : Roots) (dir : PathBuf) (fs : gset PathBuf) :
  NoDup (map (fun e => to_lowercase (display_name e)) (fst (scan roots dir fs))) /\
  forall t, In t (map entry_view (fst (scan roots dir fs))) <->
    exists pre c post, candidates roots = (pre ++ c :: post)%list /\ cand_view c = t /\
      Forall (fun c' => to_lowercase (c_display c') <> to_lowercase (c_display c)) pre.
Proof.
  split; [|apply scan_view].
  destruct (admit_inv dir fs (candidates roots)) as (_ & Hnd & _).
  simpl. rewrite scan_candidates.
  eapply NoDup_Permutation_proper; [|exact Hnd].
  apply Permutation_map, finalize_perm.
Qed.

(** C8: every entry of a scan has a non-empty display name. *)
Theorem scan_display_nonempty (roots : Roots) (dir : PathBuf) (fs : gset PathBuf) e :
  In e (fst (scan roots dir fs)) -> display_name e <> "".
Proof.
  intros He. destruct (scan_entry_origin _ _ _ _ He) as (c & Hc & Hv).
  destruct (candidate_origin _ _ Hc) as (src & w & _ & Hp).
  destruct (prepare_item_some _ _ _ Hp) as (w' & x & _ & _ & _ & _ & _ & Hd & _).
  unfold cand_view, entry_view in Hv. injection Hv as _ <- _. done.
Qed.

(** C10: the path of every entry of a scan is the path of a walked file
    of that scan, also for a shortcut whose target was resolved, and its
    icon path is [None] or the icon cache file named after its display
    name: the resolved target is stored nowhere in the entry. *)
Theorem scan_entry_path (roots : Roots) (dir : PathBuf) (fs : gset PathBuf) e :
  In e (fst (scan roots dir fs)) ->
  (exists src w, In (src, Some w) (walked_items roots) /\ wi_is_file w = true /\
     path e = wi_path w /\ source e = src) /\
  (icon_path e = None \/ icon_path e = Some (join dir (icon_filename (display_name e)))).
Proof.
  intros He. split.
  - destruct (scan_entry_origin _ _ _ _ He) as (c & Hc & Hv).
    destruct (candidate_origin _ _ Hc) as (src & w & Hin & Hp).
    destruct (prepare_item_some _ _ _ Hp) as (w' & x & [= <-] & Hf & _ & Hpath & Hsrc & _).
    unfold cand_view, entry_view in Hv. injection Hv as Hp' _ Hs'.
    exists src, w. repeat split; try done; congruence.
  - destruct (admit_inv dir fs (candidates roots)) as (_ & _ & _ & Hicon).
    simpl in He. rewrite scan_candidates in He.
    apply (Permutation_in _ (finalize_perm _)) in He.
    rewrite List.Forall_forall in Hicon. by apply Hicon.
Qed.

(** C6 (amended): a shortcut file that passes the scan's filters and whose
    resolution fails (an [Err] of the parser, or a panic caught by
    [catch_unwind]) falls back to its stem (or "Unknown") as display name
    and its own path as target, and the scan goes on; it yields an entry
    with that display name and its own path whenever no earlier candidate
    of the scan has the same lowercased display name; and when an earlier
    candidate (of another path) has the same lowercased display name, the
    dedup skips it: the scan yields no entry with its path, that display
    name and the Start Menu source. *)
Theorem scan_failed_shortcut (roots : Roots) (dir : PathBuf) (fs : gset PathBuf)
    (pre post : list (ProgramSource * option WalkItem)) (w : WalkItem) :
  walked_items roots = (pre ++ (StartMenu, Some w) :: post)%list ->
  prepare_item StartMenu (Some w) <> None ->
  wi_lnk w = LnkErr \/ wi_lnk w = LnkPanic ->
  (exists c, prepare_item StartMenu (Some w) = Some c /\
     c_display c = stem_or_unknown (wi_path w) /\ c_target c = wi_path w /\
     c_path c = wi_path w) /\
  (Forall (fun c' => to_lowercase (c_display c') <> to_lowercase (stem_or_unknown (wi_path w)))
     (filter_map (fun x => prepare_item (fst x) (snd x)) pre) ->
   In (wi_path w, stem_or_unknown (wi_path w), StartMenu)
      (map entry_view (fst (scan roots dir fs)))) /\
  (Forall (fun c' => c_path c' <> wi_path w)
     (filter_map (fun x => prepare_item (fst x) (snd x)) pre) ->
   Exists (fun c' => to_lowercase (c_display c') = to_lowercase (stem_or_unknown (wi_path w)))
     (filter_map (fun x => prepare_item (fst x) (snd x)) pre) ->
   ~ In (wi_path w, stem_or_unknown (wi_path w), StartMenu)
       (map entry_view (fst (scan roots dir fs)))).
Proof.
  intros Hw Hp Hl.
  destruct (prepare_item StartMenu (Some w)) as [c|] eqn:Hc; [|done].
  destruct (prepare_item_some _ _ _ Hc) as (w' & x & [= <-] & _ & _ & Hpath & Hsrc & _ & Hfail).
  destruct (Hfail Hl) as [Hd Ht].
  assert (Hcand : candidates roots =
    (filter_map (fun x => prepare_item (fst x) (snd x)) pre ++
     c :: filter_map (fun x => prepare_item (fst x) (snd x)) post)%list).
  { rewrite candidates_walked, Hw, filter_map_app. f_equal. cbn [filter_map].
    change (prepare_item (fst (StartMenu, Some w)) (snd (StartMenu, Some w)))
      with (prepare_item StartMenu (Some w)).
    rewrite Hc. done. }
  split; [by exists c|]. split.
  - intros Hf. apply scan_view.
    exists (filter_map (fun x => prepare_item (fst x) (snd x)) pre), c,
           (filter_map (fun x => prepare_item (fst x) (snd x)) post).
    split; [done|split].
    + unfold cand_view. rewrite Hpath, Hd, Hsrc. done.
    + unfold dedup_key. rewrite Hd. done.
  - intros Hpre Hex Hin.
    apply scan_view in Hin as (pre' & c' & post' & Hc' & Hv & Hf).
    unfold cand_view in Hv. injection Hv as Hp' Hd' Hs'.
    rewrite Hcand in Hc'. symmetry in Hc'.
    rewrite List.Forall_forall in Hpre, Hf.
    destruct (app_cons_compare _ _ _ _ _ _ Hc') as [Hin'|[[-> ->]|(m & ->)]].
    + by apply (Hpre c').
    + apply List.Exists_exists in Hex as (c0 & Hc0 & Hk).
      apply (Hf c0 Hc0). unfold dedup_key. rewrite Hk, Hd'. done.
    + apply (Hf c); [apply in_or_app; right; by left|].
      unfold dedup_key. rewrite Hd, Hd'. done.
Qed.

End ScanProofs.

Lemma string_compare_refl s : String.compare s s = Eq.
Proof.
  pose proof (String.compare_antisym s s) as H.
  destruct (String.compare s s); simpl in H; congruence.
Qed.

Lemma cmp_programs_antisym a b : cmp_programs a b = CompOpp (cmp_programs b a).
Proof.
  unfold cmp_programs.
  rewrite (Nat.compare_antisym (priority (source a))).
  destruct (Nat.compare (priority (source a)) (priority (source b))); simpl; try done.
  apply String.compare_antisym.
Qed.

Section PublishProofs.
Context `{Unicode} `{OsStr} `{IconBackend}.

(** C4: the list published at the end of a scan is the working list
    stably sorted by (source priority ascending, display name ascending,
    byte-wise): it is sorted, a permutation of the working list, and
    entries of equal key keep their working-list order; found as
    [Zeta (Program Files); Alpha (Start Menu); Beta (Start Menu)], the
    entries are published as [Alpha; Beta; Zeta]. *)
Theorem scan_publish_sorted (roots : Roots) (dir : PathBuf) (fs : gset PathBuf) (st : Store) :
  let published := st_entries (apply_writes st (publish_writes (fst (scan roots dir fs)))) in
  let working := programs (scan_working roots dir fs) in
  Sorted (fun a b => cmp_programs a b <> Gt) published /\
  Permutation published working /\
  (forall pr d,
     List.filter (fun e => Nat.eqb (priority (source e)) pr && String.eqb (display_name e) d)
       published =
     List.filter (fun e => Nat.eqb (priority (source e)) pr && String.eqb (display_name e) d)
       working) /\
  map display_name
    (finalize [mkEntry "C:\Program Files\Zeta\zeta.exe" "zeta" "Zeta" ProgramFiles None;
               mkEntry "C:\Start Menu\Alpha.lnk" "alpha" "Alpha" StartMenu None;
               mkEntry "C:\Start Menu\Beta.lnk" "beta" "Beta" StartMenu None]) =
  ["Alpha"; "Beta"; "Zeta"].
Proof.
  intros published working.
  assert (Hpub : published = finalize working) by done.
  rewrite Hpub. split; [|split; [|split]].
  - apply sort_by_sorted, cmp_programs_antisym.
  - apply finalize_perm.
  - intros pr d. apply sort_by_filter.
    intros x y Px Hg. apply andb_true_iff in Px as [Hpx Hdx].
    apply Nat.eqb_eq in Hpx. apply String.eqb_eq in Hdx.
    destruct (Nat.eqb_spec (priority (source y)) pr); [|done].
    destruct (String.eqb_spec (display_name y) d); [|by rewrite andb_false_r].
    unfold cmp_programs in Hg.
    rewrite Hpx, e, Nat.compare_refl, Hdx, e0, string_compare_refl in Hg. done.
  - reflexivity.
Qed.

End PublishProofs.

(* ------------------------------------------------------------------ *)
(** ** The index store *)

Section StoreProofs.
Context `{Unicode} `{OsStr} `{IconBackend} `{CacheCodec}.

(** C7: [load_cache] returns true exactly when the snapshot file exists,
    is readable and parses, and then publishes the parsed list and its
    length, leaving the in-progress flag alone; otherwise it returns false
    and leaves the whole store unchanged. *)
Theorem load_cache_spec (cf : CacheFile) (st : Store) :
  (fst (load_cache cf st) = true <->
     exists data cached, cf = CacheContents data /\ from_str data = Some cached) /\
  (forall data cached, cf = CacheContents data -> from_str data = Some cached ->
     snd (load_cache cf st) =
       {| st_entries := cached; st_is_indexing := st_is_indexing st;
          st_indexed_count := length cached |}) /\
  (fst (load_cache cf st) = false -> snd (load_cache cf st) = st).
Proof.
  destruct st as [es b n]. unfold load_cache, load_cache_writes.
  split; [|split].
  - destruct cf as [| |data]; simpl.
    + split; [done|]. by intros (? & ? & ? & _).
    + split; [done|]. by intros (? & ? & ? & _).
    + destruct (from_str data) as [cached|] eqn:E; simpl.
      * split; [|done]. intros _. by exists data, cached.
      * split; [done|]. intros (d & c & [= <-] & Hc). congruence.
  - intros data cached -> Hc. simpl. rewrite Hc. done.
  - destruct cf as [| |data]; simpl; try done.
    destruct (from_str data); simpl; done.
Qed.

Lemma apply_publish_consistent st l : consistent (apply_writes st (publish_writes l)).
Proof. done. Qed.

Lemma run_op_consistent st op : consistent st -> consistent (run_op st op).
Proof.
  unfold run_op, op_writes. intros Hc.
  destruct op as [cf| |roots dir fs].
  - destruct cf as [| |data]; simpl; try done.
    destruct (from_str data); simpl; done.
  - unfold start_indexing_writes. destruct (st_is_indexing st); simpl; done.
  - apply apply_publish_consistent.
Qed.

(** C9 (amended): the published count equals the length of the published
    list at construction and after every completed operation
    ([load_cache], the start of [start_indexing], the publication at the
    end of a scan), in any order. *)
Theorem store_count_consistent (ops : list StoreOp) :
  consistent (run_ops new_index ops).
Proof.
  unfold run_ops.
  assert (Hc : consistent new_index) by done.
  revert Hc. generalize new_index.
  induction ops as [|op ops IH]; intros st Hc; simpl; [done|].
  by apply IH, run_op_consistent.
Qed.

End StoreProofs.

(* ------------------------------------------------------------------ *)
(** ** More of the search engine *)

Section SearchMore.
Context `{FuzzyMatcher} `{Unicode}.

Lemma filter_map_length {A B} (f : A -> option B) l : length (filter_map f l) <= length l.
Proof.
  induction l as [|x l IH]; simpl; [lia|]. destruct (f x); simpl; lia.
Qed.

Lemma search_within_entries (query : string) (entries : list ProgramEntry) :
  length (search query entries) <= length entries /\
  (forall r, In r (search query entries) -> In (entry r) entries).
Proof.
  unfold search. destruct (String.eqb query "").
  - split.
    + rewrite length_map, length_firstn. lia.
    + intros r Hr. apply in_map_iff in Hr as (e & <- & He). by apply in_firstn in He.
  - split.
    + rewrite length_firstn, (Permutation_length (sort_by_perm _ _)).
      pose proof (filter_map_length (score_entry (to_lowercase query)) entries). lia.
    + intros r Hr. apply in_firstn in Hr.
      apply (Permutation_in _ (sort_by_perm _ _)) in Hr.
      apply in_filter_map in Hr as (e & He & Hs).
      apply score_entry_entry in Hs. by subst.
Qed.

(** Every result of [search] is one of the given entries, and there are
    never more results than entries. *)
Theorem search_results_within (query : string) (entries : list ProgramEntry) :
  length (search query entries) <= length entries /\
  (forall r, In r (search query entries) -> In (entry r) entries).
Proof. apply search_within_entries. Qed.

(** A non-empty query is used only through its lowercase form: two
    non-empty queries with the same lowercase form give the same
    results, scores and order. *)
Theorem search_lowercase_query (q1 q2 : string) (entries : list ProgramEntry) :
  q1 <> "" -> q2 <> "" -> to_lowercase q1 = to_lowercase q2 ->
  search q1 entries = search q2 entries.
Proof.
  intros H1 H2 Hl. unfold search.
  apply String.eqb_neq in H1. apply String.eqb_neq in H2.
  rewrite H1, H2, Hl. done.
Qed.

End SearchMore.

(* ------------------------------------------------------------------ *)
(** ** More of the scan: filters, icons *)

Section IconName.
Context `{Unicode}.

Lemma replace_space_safe c :
  safe_char c = true ->
  (is_alphanumeric (replace_space c) = true /\ replace_space c <> " ") \/
  replace_space c = "-" \/ replace_space c = "_".
Proof.
  unfold replace_space, safe_char. intros Hc.
  destruct (String.eqb_spec c " ") as [_|Hsp]; [by right; right|].
  destruct (is_alphanumeric c); [by left|].
  destruct (String.eqb_spec c "-"); [by right; left|].
  destruct (String.eqb_spec c "_"); [by right; right|].
  done.
Qed.

(** The icon file name made from any display name is at most 50 chars
    followed by ".png", each char alphanumeric (per [char::is_alphanumeric])
    and not a space, or '-' or '_'; so, as '.', '\' and '/' are not
    alphanumeric, it holds no dot before ".png" and no path separator, and
    the icon path is a file directly inside the icon cache directory. *)
Theorem icon_filename_safe (display_name : string) :
  exists cs, icon_filename display_name = (String.concat "" cs ++ ".png")%string /\
    length cs <= 50 /\
    Forall (fun c => (is_alphanumeric c = true /\ c <> " ") \/ c = "-" \/ c = "_") cs /\
    ((forall c, In c ["."; "\"; "/"] -> is_alphanumeric c = false) ->
     Forall (fun c => ~ In c ["."; "\"; "/"]) cs).
Proof.
  exists (map replace_space (firstn 50 (List.filter safe_char (chars display_name)))).
  split; [done|]. split; [rewrite length_map, length_firstn; lia|].
  assert (Hs : Forall (fun c => (is_alphanumeric c = true /\ c <> " ") \/ c = "-" \/ c = "_")
                 (map replace_space (firstn 50 (List.filter safe_char (chars display_name))))).
  { apply List.Forall_forall. intros c Hc.
    apply in_map_iff in Hc as (c' & <- & Hc').
    apply in_firstn, filter_In in Hc' as [_ Hc'].
    by apply replace_space_safe. }
  split; [done|].
  intros Hsep. eapply List.Forall_impl; [|exact Hs]. intros c Hc Hin.
  destruct Hc as [[Ha _]|[-> | ->]].
  - rewrite (Hsep c Hin) in Ha. discriminate.
  - simpl in Hin. repeat destruct Hin as [Hin|Hin]; try discriminate; done.
  - simpl in Hin. repeat destruct Hin as [Hin|Hin]; try discriminate; done.
Qed.

End IconName.

Section ScanMore.
Context `{Unicode} `{OsStr} `{IconBackend}.



Lemma admit_origin dir fs P e :
  In e (programs (fold_left (admit_candidate dir) P (scan_start fs))) ->
  exists c, In c P /\ path e = c_path c /\ name e = c_name c /\
    display_name e = c_display c /\ source e = c_source c.
Proof.
  induction P as [|c P IH] using rev_ind; simpl; [done|].
  rewrite fold_left_app. simpl. unfold admit_candidate at 1.
  destruct (seen _ !! _).
  - intros He. destruct (IH He) as (c' & Hc' & Hrest).
    exists c'. split; [apply in_or_app; by left|done].
  - destruct (extract_icon _ _ _ _) as [icon fs']. simpl.
    intros He. apply in_app_or in He as [He|[<-|[]]].
    + destruct (IH He) as (c' & Hc' & Hrest).
      exists c'. split; [apply in_or_app; by left|done].
    + exists c. split; [apply in_or_app; right; by left|done].
Qed.

Lemma prepare_item_filters src it c :
  prepare_item src it = Some c ->
  exists w x x', it = Some w /\ c_path c = wi_path w /\ c_source c = src /\
    extension (wi_path w) = Some x /\ to_str x = Some x' /\
    In (to_lowercase x') (extensions src) /\
    c_name c = match file_stem (wi_path w) with
               | Some n => match to_str n with Some n' => to_lowercase n' | None => "" end
               | None => ""
               end /\
    Forall (fun k => contains (c_name c) k = false)
      ["uninstall"; "uninst"; "update"; "updater"; "setup"] /\
    (src = ProgramFiles -> c_display c = stem_or_unknown (wi_path w) /\ c_target c = wi_path w).
Proof.
  intros Hp. unfold prepare_item in Hp.
  set (gd := get_display_name_and_target) in Hp.
  assert (Egd : gd = get_display_name_and_target) by done. clearbody gd.
  destruct it as [w|]; [|done].
  destruct (wi_is_file w); [|done]. simpl in Hp.
  destruct (extension (wi_path w)) as [x|] eqn:Hx; [|done].
  destruct (to_str x) as [x'|] eqn:Hx'; [|done].
  destruct (existsb _ _) eqn:Hext; [|done]. simpl in Hp.
  set (nl := match file_stem (wi_path w) with
             | Some n => match to_str n with Some n' => to_lowercase n' | None => "" end
             | None => "" end) in Hp.
  destruct (contains nl "uninstall" || contains nl "uninst" || contains nl "update"
            || contains nl "updater" || contains nl "setup") eqn:Hex; [done|].
  destruct (gd w (Some (to_lowercase x'))) as [d tp] eqn:Hg.
  injection Hp as <-. simpl.
  apply existsb_exists in Hext as (y & Hy & Hyeq). apply String.eqb_eq in Hyeq. subst y.
  exists w, x, x'. do 6 (split; [done|]). split; [done|]. split.
  - repeat apply orb_false_iff in Hex as [Hex ?]. repeat constructor; done.
  - intros ->. simpl in Hy. destruct Hy as [Hy|[]]. rewrite <- Hy, Egd in Hg.
    unfold get_display_name_and_target in Hg. by injection Hg as <- <-.
Qed.

(** Every entry of a scan passed [index_directory]'s filters: its path
    has the extension of its source ("lnk" in the Start Menu, "exe" in
    Program Files, compared in lowercase), its [name] is the lowercased
    file stem of its path (empty when the stem is not valid Unicode), and
    that name contains none of "uninstall", "uninst", "update", "updater"
    and "setup". *)
Theorem scan_entry_filters (roots : Roots) (dir : PathBuf) (fs : gset PathBuf) e :
  In e (fst (scan roots dir fs)) ->
  (exists x x', extension (path e) = Some x /\ to_str x = Some x' /\
     In (to_lowercase x') (extensions (source e))) /\
  name e = match file_stem (path e) with
           | Some n => match to_str n with Some n' => to_lowercase n' | None => "" end
           | None => ""
           end /\
  Forall (fun k => contains (name e) k = false)
    ["uninstall"; "uninst"; "update"; "updater"; "setup"].
Proof.
  intros He. simpl in He.
  apply (Permutation_in _ (finalize_perm _)) in He.
  rewrite scan_candidates in He.
  destruct (admit_origin _ _ _ _ He) as (c & Hc & Hpath & Hname & _ & Hsrc).
  destruct (candidate_origin _ _ Hc) as (src & w & _ & Hp).
  destruct (prepare_item_filters _ _ _ Hp)
    as (w' & x & x' & [= <-] & Hcp & Hcs & Hx & Hx' & Hin & Hn & Hf & _).
  rewrite Hpath, Hcp, Hsrc, Hcs, Hname.
  split; [by exists x, x'|]. split; [done|]. by rewrite <- Hname, Hname.
Qed.

(** A Program Files executable is never opened as a shortcut: its
    entry's display name is the stem of its own path, or "Unknown" when
    it has none or it is not valid Unicode. *)
Theorem scan_program_files_display (roots : Roots) (dir : PathBuf) (fs : gset PathBuf) e :
  In e (fst (scan roots dir fs)) -> source e = ProgramFiles ->
  display_name e = stem_or_unknown (path e).
Proof.
  intros He Hs. simpl in He.
  apply (Permutation_in _ (finalize_perm _)) in He.
  rewrite scan_candidates in He.
  destruct (admit_origin _ _ _ _ He) as (c & Hc & Hpath & _ & Hd & Hsrc).
  destruct (candidate_origin _ _ Hc) as (src & w & _ & Hp).
  destruct (prepare_item_filters _ _ _ Hp)
    as (w' & x & x' & [= <-] & Hcp & Hcs & _ & _ & _ & _ & _ & Hpf).
  rewrite Hs in Hsrc. rewrite <- Hsrc in Hcs. subst src.
  destruct (Hpf eq_refl) as [Hdisp _]. by rewrite Hd, Hpath, Hcp, Hdisp.
Qed.


End ScanMore.

(* ------------------------------------------------------------------ *)
(** ** More of the store *)

Section StoreMore.
Context `{Unicode} `{OsStr} `{IconBackend} `{CacheCodec}.

Lemma run_op_keeps_flag st op :
  st_is_indexing st = true ->
  match op with OpFinishScan _ _ _ => False | _ => True end ->
  st_is_indexing (run_op st op) = true.
Proof.
  intros Hf Hop. destruct op as [cf| |]; [| | done]; unfold run_op, op_writes.
  - destruct cf as [| |data]; simpl; [done|done|].
    destruct (from_str data); simpl; done.
  - unfold start_indexing_writes. rewrite Hf. done.
Qed.

Lemma run_ops_keeps_flag st ops :
  st_is_indexing st = true ->
  Forall (fun op => match op with OpFinishScan _ _ _ => False | _ => True end) ops ->
  st_is_indexing (run_ops st ops) = true.
Proof.
  intros Hs Hops. unfold run_ops. revert st Hs.
  induction Hops as [|op ops Hop Hops IH]; intros s Hs; simpl; [done|].
  apply IH. by apply run_op_keeps_flag.
Qed.

(** Once [start_indexing] has run, the in-progress flag stays set until
    a scan publishes: cache loads and further [start_indexing] calls in
    between leave it set, and each of those calls spawns nothing (its
    spawn decision is false) and writes nothing. *)
Theorem indexing_flag_held (st : Store) (ops : list StoreOp) :
  Forall (fun op => match op with OpFinishScan _ _ _ => False | _ => True end) ops ->
  st_is_indexing (run_ops (run_op st OpStartIndexing) ops) = true /\
  (forall ops1 ops2, ops = (ops1 ++ OpStartIndexing :: ops2)%list ->
     start_indexing_writes (run_ops (run_op st OpStartIndexing) ops1) = (false, [])).
Proof.
  intros Hops.
  assert (Hstart : st_is_indexing (run_op st OpStartIndexing) = true).
  { unfold run_op, op_writes, start_indexing_writes.
    destruct (st_is_indexing st) eqn:E; simpl; done. }
  split; [by apply run_ops_keeps_flag|].
  intros ops1 ops2 ->. apply Forall_app in Hops as [Hops1 _].
  unfold start_indexing_writes. by rewrite run_ops_keeps_flag.
Qed.

End StoreMore.

(* ------------------------------------------------------------------ *)
(** ** Config::load *)

Section ConfigProofs.
Context `{ConfigEnv}.

(** [Config::load] reads config.yaml from the current directory when it
    exists there, and then only that file: if it cannot be read or
    parsed the defaults are used, even when a valid config.yaml sits next
    to the executable.  Otherwise it reads the config.yaml next to the
    executable when that exists, and it falls back to the defaults when
    neither file exists. *)
Theorem config_load_order :
  (cfg_exists "config.yaml" = true ->
     load = match read_to_string "config.yaml" with
            | Some s => match yaml_from_str s with Some c => c | None => default_config end
            | None => default_config
            end) /\
  (forall exe d, cfg_exists "config.yaml" = false -> current_exe = Some exe ->
     parent exe = Some d -> cfg_exists (join d "config.yaml") = true ->
     load = match read_to_string (join d "config.yaml") with
            | Some s => match yaml_from_str s with Some c => c | None => default_config end
            | None => default_config
            end) /\
  (cfg_exists "config.yaml" = false ->
     (forall exe d, current_exe = Some exe -> parent exe = Some d ->
        cfg_exists (join d "config.yaml") = false) ->
     load = default_config).
Proof.
  unfold load, config_path. split; [|split].
  - intros Hl. rewrite !Hl. done.
  - intros exe d Hl He Hp Hx. rewrite Hl, He, Hp, Hx, Hx. done.
  - intros Hl Hno. rewrite Hl.
    destruct current_exe as [exe|]; [|by rewrite Hl].
    destruct (parent exe) as [d|] eqn:Hp; [|by rewrite Hl].
    rewrite (Hno exe d eq_refl Hp), Hl. done.
Qed.

End ConfigProofs.

(* ------------------------------------------------------------------ *)
(** ** The window's update loop *)

Lemma update_selection a m :
  selected_index a = 0 \/ selected_index a < length (search_results a) ->
  let a' := fst (fst (update a m)) in
  selected_index a' = 0 \/ selected_index a' < length (search_results a').
Proof.
  intros Hsel. destruct m as [q|rs| |k|b n| |b| | | |]; simpl.
  - by left.
  - destruct (Nat.leb (length rs) (selected_index a)) eqn:E; simpl; [by left|].
    apply Nat.leb_gt in E. by right.
  - done.
  - destruct k as [[]| |]; simpl; try done.
    + destruct (search_results a) as [|r rs] eqn:Er; [simpl; by rewrite Er|].
      right. cbn -[Nat.modulo]. rewrite Er. apply Nat.mod_upper_bound. simpl. lia.
    + destruct (search_results a) as [|r rs] eqn:Er; simpl; [by rewrite Er|].
      right. simpl. rewrite Er. simpl in *.
      destruct (Nat.eqb_spec (selected_index a) 0); lia.
    + by left.
  - destruct b; simpl; done.
  - destruct (negb (is_indexing a)); simpl; done.
  - destruct b; simpl; done.
  - done.
  - done.
  - done.
  - done.
Qed.

Lemma launch_some a :
  selected_index a = 0 \/ selected_index a < length (search_results a) ->
  launch a <> None <-> search_results a <> [].
Proof.
  intros Hsel. unfold launch. split.
  - intros Hl Hr. rewrite Hr in Hl. destruct (selected_index a); done.
  - intros Hr. assert (Hlt : selected_index a < length (search_results a)).
    { destruct (search_results a) eqn:E; [done|]. simpl in *. lia. }
    apply nth_error_Some in Hlt. destruct (nth_error _ _); done.
Qed.

(** After any sequence of messages from [App::new], the selected index
    is 0 or within the result list, so the Enter key and the submit of
    the search box open a program exactly when the list is non-empty. *)
Theorem ui_selection_valid (config : Config) (ms : list Message) :
  let a := run_messages (fst (new_app config)) ms in
  (selected_index a = 0 \/ selected_index a < length (search_results a)) /\
  (snd (update a LaunchSelected) <> None <-> search_results a <> []) /\
  (snd (update a (KeyPressed (Named Enter))) <> None <-> search_results a <> []).
Proof.
  cbv zeta.
  assert (Hinv : forall a, selected_index a = 0 \/ selected_index a < length (search_results a) ->
            let a' := run_messages a ms in
            selected_index a' = 0 \/ selected_index a' < length (search_results a')).
  { unfold run_messages. induction ms as [|m ms IH]; intros a Ha; simpl; [done|].
    apply IH. by apply update_selection. }
  assert (Hs := Hinv (fst (new_app config)) (or_introl eq_refl)). simpl in Hs.
  split; [done|]. simpl. split; by apply launch_some.
Qed.

Lemma iter_down a k :
  search_results a <> [] -> selected_index a < length (search_results a) ->
  search_results (Nat.iter k (fun a => fst (fst (update a (KeyPressed (Named ArrowDown))))) a)
    = search_results a /\
  selected_index (Nat.iter k (fun a => fst (fst (update a (KeyPressed (Named ArrowDown))))) a)
    = Nat.modulo (selected_index a + k) (length (search_results a)).
Proof.
  intros Hne Hlt. induction k as [|k IH].
  - split; [done|]. simpl. rewrite Nat.add_0_r. symmetry. by apply Nat.mod_small.
  - destruct IH as [Hr Hs]. simpl.
    set (b := Nat.iter k _ a) in *.
    assert (Hr' : search_results b = search_results a) by exact Hr. clear Hr.
    assert (Hs' : selected_index b = Nat.modulo (selected_index a + k) (length (search_results a)))
      by exact Hs. clear Hs.
    destruct (search_results b) as [|r rs] eqn:Eb; [by rewrite Hr' in Eb|].
    clearbody b. rewrite <- Eb. cbn [fst snd set_selected selected_index search_results].
    rewrite Eb, Hr'. split; [done|].
    rewrite Hs', Nat.Div0.add_mod_idemp_l. f_equal. lia.
Qed.

(** On a non-empty result list with the selection inside it, the down
    and up arrow keys move the selection cyclically: one undoes the
    other, pressing down as many times as there are results comes back
    to the same result, and neither key changes the results. *)
Theorem ui_arrow_keys (a : App) :
  search_results a <> [] -> selected_index a < length (search_results a) ->
  let down := fun a => fst (fst (update a (KeyPressed (Named ArrowDown)))) in
  let up := fun a => fst (fst (update a (KeyPressed (Named ArrowUp)))) in
  selected_index (up (down a)) = selected_index a /\
  selected_index (down (up a)) = selected_index a /\
  selected_index (Nat.iter (length (search_results a)) down a) = selected_index a /\
  search_results (down a) = search_results a /\ search_results (up a) = search_results a.
Proof.
  intros Hne Hlt. cbv zeta. cbv beta.
  destruct (iter_down a (length (search_results a)) Hne Hlt) as [_ Hit].
  set (n := length (search_results a)) in *.
  assert (Hd : forall b, search_results b = search_results a ->
    search_results (fst (fst (update b (KeyPressed (Named ArrowDown))))) = search_results a /\
    selected_index (fst (fst (update b (KeyPressed (Named ArrowDown))))) =
      Nat.modulo (selected_index b + 1) n).
  { intros b Hb. unfold update. rewrite Hb. unfold n.
    destruct (search_results a) as [|r rs]; [done|].
    cbn [fst snd set_selected selected_index search_results].
    rewrite Hb. split; done. }
  assert (Hu : forall b, search_results b = search_results a ->
    search_results (fst (fst (update b (KeyPressed (Named ArrowUp))))) = search_results a /\
    selected_index (fst (fst (update b (KeyPressed (Named ArrowUp))))) =
      (if Nat.eqb (selected_index b) 0 then n - 1 else selected_index b - 1)).
  { intros b Hb. unfold update. rewrite Hb. unfold n.
    destruct (search_results a) as [|r rs]; [done|].
    cbn [fst snd set_selected selected_index search_results].
    rewrite Hb. split; done. }
  destruct (Hd a eq_refl) as [Hdr Hds]. destruct (Hu a eq_refl) as [Hur Hus].
  destruct (Hd _ Hur) as [_ Hdus]. destruct (Hu _ Hdr) as [_ Huds].
  split; [|split; [|split; [|done]]].
  - rewrite Huds, Hds.
    destruct (Nat.eq_dec (selected_index a + 1) n) as [E|E].
    + rewrite E, Nat.Div0.mod_same. simpl. lia.
    + rewrite (Nat.mod_small (selected_index a + 1) n) by lia.
      destruct (Nat.eqb_spec (selected_index a + 1) 0); lia.
  - rewrite Hdus, Hus.
    destruct (Nat.eqb_spec (selected_index a) 0) as [E|E].
    + replace (n - 1 + 1) with n by lia. rewrite Nat.Div0.mod_same. lia.
    + replace (selected_index a - 1 + 1) with (selected_index a) by lia.
      by apply Nat.mod_small.
  - rewrite Hit. replace (selected_index a + n) with (selected_index a + 1 * n) by lia.
    rewrite Nat.Div0.mod_add. by apply Nat.mod_small.
Qed.

Section PerformSearch.
Context `{FuzzyMatcher} `{Unicode}.

(** [perform_search] sends back at most [max_results] results, at most 20
    for the empty query and 50 for any other, each made of the path,
    display name and icon of one of the store's entries; for the empty
    query they are the first min([max_results], 20) entries, in order. *)
Theorem perform_search_results_spec (query : string) (max_results : nat)
    (entries : list ProgramEntry) :
  let rs := perform_search_results query max_results entries in
  length rs <= max_results /\
  length rs <= (if String.eqb query "" then 20 else 50) /\
  (forall r, In r rs -> exists e, In e entries /\ pr_path r = path e /\
     pr_display_name r = display_name e /\ pr_icon_path r = icon_path e) /\
  (query = "" ->
     rs = map (fun e => {| pr_path := path e; pr_display_name := display_name e;
                           pr_icon_path := icon_path e |})
              (firstn (Nat.min max_results 20) entries)).
Proof.
  cbv zeta. unfold perform_search_results. split; [|split; [|split]].
  - rewrite length_map, length_firstn. lia.
  - rewrite length_map, length_firstn. unfold search.
    destruct (String.eqb query ""); [rewrite length_map|]; rewrite length_firstn; lia.
  - intros r Hr. apply in_map_iff in Hr as (x & <- & Hx).
    apply in_firstn in Hx. apply search_within_entries in Hx.
    exists (entry x). done.
  - intros ->. unfold search. simpl.
    rewrite firstn_map, map_map, firstn_firstn. done.
Qed.

End PerformSearch.

(* ------------------------------------------------------------------ *)
(** ** Concrete runs: witnesses and counterexamples *)

Import Concrete.

(** C1, as stated, fails: 51 Start Menu entries all match "app" with equal
    scores, and the 51st is not returned, cut by the 50-result cap. *)
Lemma search_scoring_counterexample :
  In app50 apps /\
  fuzzy_match (to_lowercase (display_name app50)) (to_lowercase "app") <> None /\
  ~ In app50 (map entry (search "app" apps)).
Proof.
  split; [|split].
  - vm_compute. do 50 right. left. reflexivity.
  - vm_compute. discriminate.
  - intros Hin. apply (in_map path) in Hin. vm_compute in Hin.
    repeat (destruct Hin as [Hin|Hin]; [discriminate|]). exact Hin.
Qed.

Lemma search_scoring_witness :
  "chr" <> "" /\ In (entry_of "C:\Start Menu\Chrome.lnk" "Chrome" StartMenu) demo_entries /\
  exists r, In r (search "chr" demo_entries) /\
            entry r = entry_of "C:\Start Menu\Chrome.lnk" "Chrome" StartMenu.
Proof.
  assert (Hq : "chr" <> "") by discriminate.
  assert (Hin : In (entry_of "C:\Start Menu\Chrome.lnk" "Chrome" StartMenu) demo_entries)
    by (left; reflexivity).
  split; [exact Hq|]. split; [exact Hin|].
  destruct (search_scoring "chr" demo_entries _ Hq Hin) as (_ & _ & _ & H4).
  apply (proj2 (H4 3%Z ltac:(vm_compute; reflexivity))).
  exists 0. split; [reflexivity|]. vm_compute. lia.
Defined.

Lemma search_sorted_stable_capped_witness :
  "chr" <> "" /\ Sorted (fun a b => (score b <= score a)%Z) (search "chr" demo_entries).
Proof.
  assert (Hq : "chr" <> "") by discriminate.
  split; [exact Hq|].
  apply (search_sorted_stable_capped "chr" demo_entries Hq).
Defined.

(** The icon file name keeps the letters outside ASCII: a Latin-1 letter
    is one char of two bytes, kept by the filter and counted once by
    [take(50)]. *)
Example icon_filename_utf8 :
  @icon_filename unicode_latin1 "Café Müller (x64)" = "Café_Müller_x64.png" /\
  length (@chars unicode_latin1 (@icon_filename unicode_latin1 "Café Müller (x64)")) = 19 /\
  length (@chars unicode_latin1
            (@icon_filename unicode_latin1 (String.concat "" (repeat "é" 60)))) = 54.
Proof. split; [|split]; vm_compute; reflexivity. Qed.

(** The example of C3: over 25 entries the empty query gives the first 20. *)
Example search_empty_query_25 :
  map entry (search "" (firstn 25 apps)) = firstn 20 apps /\
  Forall (fun r => score r = 0%Z) (search "" (firstn 25 apps)).
Proof. split; [reflexivity|]. vm_compute. repeat constructor. Qed.

(** C6, as stated, fails: of two malformed shortcuts App.lnk and app.lnk,
    the second one yields no entry (the dedup on the lowercased display
    name drops it). *)
Lemma scan_failed_shortcut_counterexample :
  In (Some app_lower_lnk) (concat (start_menu_walks roots_dup)) /\
  wi_lnk app_lower_lnk = LnkPanic /\
  prepare_item StartMenu (Some app_lower_lnk) <> None /\
  map path (fst (scan roots_dup "C:\icons" ∅)) = ["C:\Start Menu\A\App.lnk"].
Proof.
  split; [right; left; reflexivity|]. split; [reflexivity|].
  split; [vm_compute; discriminate|]. vm_compute. reflexivity.
Qed.

Lemma scan_failed_shortcut_witness :
  walked_items roots_demo =
    ([(StartMenu, Some notepad_lnk); (StartMenu, None)] ++
     (StartMenu, Some broken_lnk) :: [(ProgramFiles, Some chrome_exe)])%list /\
  prepare_item StartMenu (Some broken_lnk) <> None /\
  In ("C:\Start Menu\Broken.lnk", "Broken", StartMenu)
     (map entry_view (fst (scan roots_demo "C:\icons" ∅))) /\
  walked_items roots_dup =
    ([(StartMenu, Some app_upper_lnk)] ++ (StartMenu, Some app_lower_lnk) :: [])%list /\
  prepare_item StartMenu (Some app_lower_lnk) <> None /\
  ~ In ("C:\Start Menu\B\app.lnk", "app", StartMenu)
      (map entry_view (fst (scan roots_dup "C:\icons" ∅))).
Proof.
  assert (Hw : walked_items roots_demo =
    ([(StartMenu, Some notepad_lnk); (StartMenu, None)] ++
     (StartMenu, Some broken_lnk) :: [(ProgramFiles, Some chrome_exe)])%list)
    by reflexivity.
  assert (Hp : prepare_item StartMenu (Some broken_lnk) <> None)
    by (vm_compute; discriminate).
  split; [exact Hw|]. split; [exact Hp|].
  destruct (scan_failed_shortcut roots_demo "C:\icons" ∅ _ _ broken_lnk Hw Hp
              (or_introl eq_refl)) as (_ & H2 & _).
  split; [apply H2; vm_compute; repeat constructor; discriminate|].
  assert (Hw2 : walked_items roots_dup =
    ([(StartMenu, Some app_upper_lnk)] ++ (StartMenu, Some app_lower_lnk) :: [])%list)
    by reflexivity.
  assert (Hp2 : prepare_item StartMenu (Some app_lower_lnk) <> None)
    by (vm_compute; discriminate).
  split; [exact Hw2|]. split; [exact Hp2|].
  destruct (scan_failed_shortcut roots_dup "C:\icons" ∅ _ _ app_lower_lnk Hw2 Hp2
              (or_intror eq_refl)) as (_ & _ & H3).
  refine (H3 _ _); vm_compute.
  - repeat constructor. discriminate.
  - constructor. reflexivity.
Defined.

Lemma scan_display_nonempty_witness :
  In notepad_entry (fst (scan roots_demo "C:\icons" ∅)) /\ display_name notepad_entry <> "".
Proof.
  assert (Hin : In notepad_entry (fst (scan roots_demo "C:\icons" ∅)))
    by (vm_compute; right; left; reflexivity).
  split; [exact Hin|].
  exact (scan_display_nonempty roots_demo "C:\icons" ∅ notepad_entry Hin).
Defined.

Lemma scan_entry_path_witness :
  In notepad_entry (fst (scan roots_demo "C:\icons" ∅)) /\
  exists src w, In (src, Some w) (walked_items roots_demo) /\ wi_is_file w = true /\
    path notepad_entry = wi_path w /\ source notepad_entry = src.
Proof.
  assert (Hin : In notepad_entry (fst (scan roots_demo "C:\icons" ∅)))
    by (vm_compute; right; left; reflexivity).
  split; [exact Hin|].
  exact (proj1 (scan_entry_path roots_demo "C:\icons" ∅ notepad_entry Hin)).
Defined.

(** C9, as stated, fails: a reader that runs after the publication has
    written the entry list and before it has written the count sees the
    three new entries with the count 0 of the empty store. *)
Lemma store_count_consistent_counterexample :
  let published := fst (scan roots_demo "C:\icons" ∅) in
  let mid := apply_writes new_index (firstn 1 (publish_writes published)) in
  st_entries mid = published /\ st_indexed_count mid = 0 /\
  length (st_entries mid) = 3 /\ ~ consistent mid.
Proof.
  vm_compute. split; [reflexivity|]. split; [reflexivity|]. split; [reflexivity|].
  discriminate.
Qed.

Lemma search_lowercase_query_witness :
  "NOTE" <> "" /\ "note" <> "" /\ to_lowercase "NOTE" = to_lowercase "note" /\
  search "NOTE" demo_entries = search "note" demo_entries.
Proof.
  assert (H1 : "NOTE" <> "") by discriminate.
  assert (H2 : "note" <> "") by discriminate.
  assert (H3 : to_lowercase "NOTE" = to_lowercase "note") by reflexivity.
  split; [exact H1|]. split; [exact H2|]. split; [exact H3|].
  exact (search_lowercase_query "NOTE" "note" demo_entries H1 H2 H3).
Defined.

Lemma scan_entry_filters_witness :
  In notepad_entry (fst (scan roots_demo "C:\icons" ∅)) /\
  name notepad_entry = "notepad" /\
  Forall (fun k => contains (name notepad_entry) k = false)
    ["uninstall"; "uninst"; "update"; "updater"; "setup"].
Proof.
  assert (Hin : In notepad_entry (fst (scan roots_demo "C:\icons" ∅)))
    by (vm_compute; right; left; reflexivity).
  split; [exact Hin|]. split; [reflexivity|].
  exact (proj2 (proj2 (scan_entry_filters roots_demo "C:\icons" ∅ notepad_entry Hin))).
Defined.

Lemma scan_program_files_display_witness :
  In chrome_entry (fst (scan roots_demo "C:\icons" ∅)) /\ source chrome_entry = ProgramFiles /\
  display_name chrome_entry = stem_or_unknown (path chrome_entry).
Proof.
  assert (Hin : In chrome_entry (fst (scan roots_demo "C:\icons" ∅)))
    by (vm_compute; right; right; left; reflexivity).
  assert (Hs : source chrome_entry = ProgramFiles) by reflexivity.
  split; [exact Hin|]. split; [exact Hs|].
  exact (scan_program_files_display roots_demo "C:\icons" ∅ chrome_entry Hin Hs).
Defined.

Lemma indexing_flag_held_witness :
  st_is_indexing (run_ops (run_op new_index OpStartIndexing)
                    [OpLoadCache CacheMissing; OpStartIndexing]) = true /\
  start_indexing_writes (run_ops (run_op new_index OpStartIndexing)
                           [OpLoadCache CacheMissing]) = (false, []).
Proof.
  assert (Hops : Forall (fun op => match op with OpFinishScan _ _ _ => False | _ => True end)
                   [OpLoadCache CacheMissing; OpStartIndexing])
    by repeat constructor.
  destruct (indexing_flag_held new_index _ Hops) as [H1 H2].
  split; [exact H1|]. exact (H2 [OpLoadCache CacheMissing] [] eq_refl).
Defined.

Lemma ui_arrow_keys_witness :
  search_results two_results_app <> [] /\
  selected_index two_results_app < length (search_results two_results_app) /\
  selected_index (fst (fst (update (fst (fst (update two_results_app
    (KeyPressed (Named ArrowDown))))) (KeyPressed (Named ArrowUp))))) = 1.
Proof.
  assert (Hne : search_results two_results_app <> []) by discriminate.
  assert (Hlt : selected_index two_results_app < length (search_results two_results_app))
    by (simpl; lia).
  split; [exact Hne|]. split; [exact Hlt|].
  exact (proj1 (ui_arrow_keys two_results_app Hne Hlt)).
Defined.
